(** * Emotion-based music player: the decision core of
    [emotion_music_player.py], embedded in Rocq.

    Conventions of the embedding.
    - Python [str] is [string]; [None]-or-value is [option].
    - Python floats (classifier scores, [time.time()]) are rationals [Q];
      the code only compares and subtracts them.
    - A [dict] whose iteration order is observed ([emotions.items()],
      [emotion_counts.items()], [self.emotion_categories.items()]) is an
      association list in insertion order; [self.songs], only ever looked up
      by key, is a [gmap].
    - The external collaborators (pygame mixer, [print], [random.choice],
      [time.time()], the camera and the classifier) are an event trace that
      the code appends to, and a per-frame record of what they answer.
    - A Python exception is a value of [exn]; code that can raise returns
      [exn + A]. *)

From Stdlib Require Import QArith Lqa.
From stdpp Require Import gmap strings list fin_maps.

Open Scope string_scope.
Open Scope list_scope.
Open Scope nat_scope.

(** ** Python built-ins used by the program *)

Inductive exn : Type :=
| ValueError (msg : string)
| TypeError (msg : string)
| OtherError (msg : string).

(** [max(iterable, key=...)] keeps the first item and replaces it only by an
    item whose key is strictly greater; [ValueError] on an empty iterable. *)
Fixpoint max_from {A K : Type} (ltb : K → K → bool) (key : A → K)
    (best : A) (l : list A) : A :=
  match l with
  | [] => best
  | x :: l' =>
      if ltb (key best) (key x) then max_from ltb key x l'
      else max_from ltb key best l'
  end.

Definition py_max {A K : Type} (ltb : K → K → bool) (key : A → K)
    (l : list A) : exn + A :=
  match l with
  | [] => inl (ValueError "max() arg is an empty sequence")
  | x :: l' => inr (max_from ltb key x l')
  end.

(** Strict comparison of two scores, [a < b]. *)
Definition Qltb (a b : Q) : bool := negb (Qle_bool b a).

(** Truth value of a [str]-or-[None]: [None] and the empty string are false. *)
Definition truthy (o : option string) : bool :=
  match o with
  | None => false
  | Some s => negb (String.eqb s "")
  end.

(** [x in l] on a list of strings. *)
Definition str_in (x : string) (l : list string) : bool :=
  existsb (String.eqb x) l.

(** [d.get(k, 0)] and [d[k] = v] on an insertion-ordered dict. *)
Fixpoint dict_get (d : list (string * nat)) (k : string) (dflt : nat) : nat :=
  match d with
  | [] => dflt
  | (k', v) :: d' => if String.eqb k' k then v else dict_get d' k dflt
  end.

Fixpoint dict_set (d : list (string * nat)) (k : string) (v : nat)
    : list (string * nat) :=
  match d with
  | [] => [(k, v)]
  | (k', v') :: d' =>
      if String.eqb k' k then (k', v) :: d' else (k', v') :: dict_set d' k v
  end.

(** [collections.deque(maxlen=n).append(x)]: the item is appended on the
    right and, if the deque is then longer than [maxlen], one item is dropped
    from the left. *)
Definition deque_append {A : Type} (maxlen : nat) (d : list A) (x : A)
    : list A :=
  let d' := d ++ [x] in
  if Nat.ltb maxlen (length d') then drop 1 d' else d'.

(** ** The player object *)

Record Player : Type := mkPlayer {
  songs : gmap string (list string);
  current_emotion : option string;
  current_song : option string;
  emotion_stability_threshold : Q;
  emotion_history : list string;
  confidence_threshold : Q;
  detection_frequency : nat
}.

(** [deque(maxlen=10)] *)
Definition history_maxlen : nat := 10.

(** [self.emotion_categories], in the order the literal lists its keys. *)
Definition emotion_categories : list (string * list string) :=
  [ ("happy", ["happy"]);
    ("sad", ["sad"; "fear"; "angry"]);
    ("neutral", ["neutral"; "surprise"; "disgust"]) ].

(** The state [__init__] leaves behind, given the catalog [load_songs]
    built. *)
Definition init (catalog : gmap string (list string)) : Player :=
  {| songs := catalog;
     current_emotion := None;
     current_song := None;
     emotion_stability_threshold := 3;
     emotion_history := [];
     confidence_threshold := 3 # 10;
     detection_frequency := 3 |}.

(** ** [get_dominant_emotion_category] *)

(** The function returns a pair when [return_confidence] is set and a bare
    category otherwise. *)
Inductive dominant : Type :=
| Bare (category : option string)
| WithConfidence (category : option string) (confidence : Q).

(** The [for cat, emotion_list in ...: if dominant_emotion in emotion_list:
    category = cat; break] loop, started with the default [category]. *)
Fixpoint map_category (table : list (string * list string))
    (dominant_emotion : string) (category : string) : string :=
  match table with
  | [] => category
  | (cat, emotion_list) :: table' =>
      if str_in dominant_emotion emotion_list then cat
      else map_category table' dominant_emotion category
  end.

Definition get_dominant_emotion_category (self : Player)
    (emotions : list (string * Q)) (return_confidence : bool)
    : exn + dominant :=
  match emotions with
  | [] =>
      inr (if return_confidence then WithConfidence None 0 else Bare None)
  | _ =>
      match py_max Qltb snd emotions with
      | inl e => inl e
      | inr (dominant_emotion, confidence) =>
          if Qltb confidence (confidence_threshold self) then
            inr (if return_confidence then WithConfidence None confidence
                 else Bare None)
          else
            let category :=
              map_category emotion_categories dominant_emotion "neutral" in
            inr (if return_confidence
                 then WithConfidence (Some category) confidence
                 else Bare (Some category))
      end
  end.

(** ** [get_smoothed_emotion] *)

(** The counting loop over the history; an entry that is false (the empty
    string) is skipped. *)
Fixpoint count_emotions (history : list string)
    (emotion_counts : list (string * nat)) : list (string * nat) :=
  match history with
  | [] => emotion_counts
  | emotion :: history' =>
      if truthy (Some emotion) then
        count_emotions history'
          (dict_set emotion_counts emotion
             (dict_get emotion_counts emotion 0 + 1))
      else count_emotions history' emotion_counts
  end.

Definition get_smoothed_emotion (self : Player) : exn + option string :=
  if Nat.ltb (length (emotion_history self)) 3 then inr None
  else
    let emotion_counts := count_emotions (emotion_history self) [] in
    match emotion_counts with
    | [] => inr None
    | _ =>
        match py_max Nat.ltb snd emotion_counts with
        | inl e => inl e
        | inr item => inr (Some (fst item))
        end
    end.

(** ** The collaborators: events and per-frame answers *)

(** The lines the program prints. *)
Inductive message : Type :=
| NoSongsAvailable (emotion : option string)
| NowPlaying (emotion : option string) (song : string)
| ErrorPlayingSong (e : exn)
| DetectionError (e : exn)
| CouldNotAccessWebcam
| CouldNotReadFrame
| Stopping
| Stopped.

(** What the program does to the outside: [print] and the calls on
    [pygame.mixer]. Drawing on the frame is not recorded. *)
Inductive event : Type :=
| Print (m : message)
| MusicStop
| MusicLoad (song : string)
| MusicPlay
| MusicGetBusy
| MixerQuit.

(** One entry of the classifier's result. *)
Record face : Type := mkFace {
  box : Z * Z * Z * Z;
  emotions : list (string * Q)
}.

(** What the outside answers during one iteration of the main loop. *)
Record Frame : Type := mkFrame {
  read_ok : bool;               (* [ret] of [cap.read()] *)
  detection : exn + list face;  (* [detect_emotions], or what it raises *)
  now : Q;                      (* [time.time()] in the stability check *)
  busy : bool;                  (* [pygame.mixer.music.get_busy()] *)
  choice : nat;                 (* the index [random.choice] draws *)
  load_error : option exn;      (* what [music.load] raises, if anything *)
  play_error : option exn;      (* what [music.play] raises, if anything *)
  key_q : bool                  (* [cv2.waitKey(1) & 0xFF == ord('q')] *)
}.

(** ** Computations on the player: state, emitted events, exceptions *)

Definition M (A : Type) : Type := Player → (exn + A) * Player * list event.

Definition ret {A : Type} (a : A) : M A := λ self, (inr a, self, []).

Definition bind {A B : Type} (m : M A) (k : A → M B) : M B :=
  λ self,
    match m self with
    | (inl e, self', evs) => (inl e, self', evs)
    | (inr a, self', evs) =>
        match k a self' with
        | (r, self'', evs') => (r, self'', evs ++ evs')
        end
    end.

Definition raise {A : Type} (e : exn) : M A := λ self, (inl e, self, []).

(** [try: m except Exception as e: h e] *)
Definition try_except {A : Type} (m : M A) (h : exn → M A) : M A :=
  λ self,
    match m self with
    | (inl e, self', evs) =>
        match h e self' with
        | (r, self'', evs') => (r, self'', evs ++ evs')
        end
    | (inr a, self', evs) => (inr a, self', evs)
    end.

Definition lift {A : Type} (r : exn + A) : M A :=
  match r with
  | inl e => raise e
  | inr a => ret a
  end.

Definition emit (ev : event) : M unit := λ self, (inr tt, self, [ev]).

Definition get_self : M Player := λ self, (inr self, self, []).

Definition put_self (self' : Player) : M unit := λ _, (inr tt, self', []).

(** stdpp's monad notations [x ← m; k] and [m;; k] are used for [M]. *)
#[global] Instance M_ret : MRet M := @ret.
#[global] Instance M_bind : MBind M := λ A B k m, bind m k.

(** Attribute assignments. *)
Definition set_current_emotion (v : option string) (self : Player) : Player :=
  {| songs := songs self;
     current_emotion := v;
     current_song := current_song self;
     emotion_stability_threshold := emotion_stability_threshold self;
     emotion_history := emotion_history self;
     confidence_threshold := confidence_threshold self;
     detection_frequency := detection_frequency self |}.

Definition set_current_song (v : option string) (self : Player) : Player :=
  {| songs := songs self;
     current_emotion := current_emotion self;
     current_song := v;
     emotion_stability_threshold := emotion_stability_threshold self;
     emotion_history := emotion_history self;
     confidence_threshold := confidence_threshold self;
     detection_frequency := detection_frequency self |}.

Definition set_emotion_history (v : list string) (self : Player) : Player :=
  {| songs := songs self;
     current_emotion := current_emotion self;
     current_song := current_song self;
     emotion_stability_threshold := emotion_stability_threshold self;
     emotion_history := v;
     confidence_threshold := confidence_threshold self;
     detection_frequency := detection_frequency self |}.

(** [self.emotion_history.append(category)] *)
Definition history_append (category : string) (self : Player) : Player :=
  set_emotion_history
    (deque_append history_maxlen (emotion_history self) category) self.

(** ** [play_song_for_emotion] *)

(** [random.choice(seq)] is [seq[i]] for the drawn index [i < len(seq)];
    [IndexError] on an empty sequence. *)
Definition random_choice {A : Type} (seq : list A) (drawn : nat) : exn + A :=
  match seq !! (drawn mod length seq)%nat with
  | Some x => inr x
  | None => inl (OtherError "IndexError")
  end.

Definition music_load (song : string) (fr : Frame) : M unit :=
  emit (MusicLoad song);;
  match load_error fr with
  | Some e => raise e
  | None => ret tt
  end.

Definition music_play (fr : Frame) : M unit :=
  emit MusicPlay;;
  match play_error fr with
  | Some e => raise e
  | None => ret tt
  end.

(** The bucket of [emotion]: [None] stands for [emotion not in self.songs];
    a key that is not a string is never in the catalog. *)
Definition bucket (self : Player) (emotion : option string)
    : option (list string) :=
  match emotion with
  | None => None
  | Some e => songs self !! e
  end.

Definition play_song_for_emotion (emotion : option string) (fr : Frame)
    : M unit :=
  self ← get_self;
  match bucket self emotion with
  | None | Some [] => emit (Print (NoSongsAvailable emotion))
  | Some tracks =>
      song ← lift (random_choice tracks (choice fr));
      emit MusicStop;;
      try_except
        (music_load song fr;;
         music_play fr;;
         self' ← get_self;
         put_self (set_current_song (Some song) self');;
         emit (Print (NowPlaying emotion song)))
        (λ e, emit (Print (ErrorPlayingSong e)))
  end.

(** ** The main loop, [run] *)

(** The local variables of [run] that live across iterations. *)
Record Locals : Type := mkLocals {
  frame_count : nat;
  pending_emotion : option string;
  pending_emotion_time : option Q;
  last_detected_emotion : option string;
  last_confidence : Q
}.

Definition initial_locals : Locals :=
  {| frame_count := 0;
     pending_emotion := None;
     pending_emotion_time := None;
     last_detected_emotion := None;
     last_confidence := 0%Q |}.

Definition set_pending (p : option string) (t : option Q) (loc : Locals)
    : Locals :=
  {| frame_count := frame_count loc;
     pending_emotion := p;
     pending_emotion_time := t;
     last_detected_emotion := last_detected_emotion loc;
     last_confidence := last_confidence loc |}.

Definition set_last_detected (e : option string) (c : Q) (loc : Locals)
    : Locals :=
  {| frame_count := frame_count loc;
     pending_emotion := pending_emotion loc;
     pending_emotion_time := pending_emotion_time loc;
     last_detected_emotion := e;
     last_confidence := c |}.

Definition set_frame_count (n : nat) (loc : Locals) : Locals :=
  {| frame_count := n;
     pending_emotion := pending_emotion loc;
     pending_emotion_time := pending_emotion_time loc;
     last_detected_emotion := last_detected_emotion loc;
     last_confidence := last_confidence loc |}.

(** [==] on two values that are a string or [None]. *)
Definition py_eq (a b : option string) : bool :=
  match a, b with
  | None, None => true
  | Some x, Some y => String.eqb x y
  | _, _ => false
  end.

Definition music_get_busy (fr : Frame) : M bool :=
  emit MusicGetBusy;; ret (busy fr).

(** [time.time() - pending_emotion_time]; the subtraction raises on [None]. *)
Definition elapsed_since (fr : Frame) (t : option Q) : M Q :=
  match t with
  | Some t0 => ret (now fr - t0)%Q
  | None => raise (TypeError "unsupported operand type(s) for -")
  end.

(** The block "Use smoothed emotion for music selection": the stability
    check on the smoothed emotion, the commit, and the replay of a finished
    song. *)
Definition stability_gate (fr : Frame) (smoothed_emotion : option string)
    (loc : Locals) : M Locals :=
  self ← get_self;
  if truthy smoothed_emotion
     && negb (py_eq smoothed_emotion (current_emotion self)) then
    if py_eq (pending_emotion loc) smoothed_emotion then
      dt ← elapsed_since fr (pending_emotion_time loc);
      if Qle_bool (emotion_stability_threshold self) dt then
        put_self (set_current_emotion smoothed_emotion self);;
        play_song_for_emotion smoothed_emotion fr;;
        ret (set_pending None (pending_emotion_time loc) loc)
      else ret loc
    else
      ret (set_pending smoothed_emotion (Some (now fr)) loc)
  else if py_eq smoothed_emotion (current_emotion self) then
    let loc' := set_pending None (pending_emotion_time loc) loc in
    idle ← (b ← music_get_busy fr; ret (negb b));
    if idle && truthy (current_emotion self) then
      play_song_for_emotion (current_emotion self) fr;;
      ret loc'
    else ret loc'
  else ret loc.

(** [x['box'][2] * x['box'][3]] *)
Definition area (f : face) : Z :=
  match box f with
  | (_, _, w, h) => (w * h)%Z
  end.

(** The body of [if frame_count % self.detection_frequency == 0]. *)
Definition analyze (fr : Frame) (loc : Locals) : M Locals :=
  result ← try_except
    (r ← lift (detection fr); ret (Some r))
    (λ e, emit (Print (DetectionError e));; ret None);
  match result with
  | Some ((_ :: _) as faces) =>
      f ← lift (py_max Z.ltb area faces);
      self ← get_self;
      d ← lift (get_dominant_emotion_category self (emotions f) true);
      match d with
      | WithConfidence emotion_category confidence =>
          match emotion_category with
          | Some category =>
              if truthy emotion_category then
                put_self (history_append category self);;
                let loc := set_last_detected emotion_category confidence loc in
                self ← get_self;
                smoothed_emotion ← lift (get_smoothed_emotion self);
                stability_gate fr smoothed_emotion loc
              else ret loc
          | None => ret loc
          end
      | Bare _ => raise (TypeError "cannot unpack non-iterable object")
      end
  | _ => ret loc
  end.

(** One iteration of [while True]; the boolean tells whether the loop goes
    on ([false] after a [break]). *)
Definition loop_body (fr : Frame) (loc : Locals) : M (bool * Locals) :=
  if negb (read_ok fr) then
    emit (Print CouldNotReadFrame);; ret (false, loc)
  else
    self ← get_self;
    loc ← (match detection_frequency self with
           | O => raise (OtherError "ZeroDivisionError")
           | _ =>
               if Nat.eqb (frame_count loc mod detection_frequency self) 0
               then analyze fr loc
               else ret loc
           end);
    if key_q fr then
      emit (Print Stopping);; ret (false, loc)
    else ret (true, set_frame_count (frame_count loc + 1) loc).

(** "Cleanup", after the loop. *)
Definition cleanup : M unit :=
  emit MusicStop;; emit MixerQuit;; emit (Print Stopped).

(** The loop over the frames the camera delivers. The boolean of the result
    is [true] when the frames end while the loop is still going, and [false]
    once the loop was left and the cleanup done. *)
Fixpoint run_loop (frames : list Frame) (loc : Locals)
    : M (bool * Locals) :=
  match frames with
  | [] => ret (true, loc)
  | fr :: frames' =>
      '(continue, loc') ← loop_body fr loc;
      if continue : bool then run_loop frames' loc'
      else cleanup;; ret (false, loc')
  end.

Definition run (opened : bool) (frames : list Frame) : M (bool * Locals) :=
  if negb opened then
    emit (Print CouldNotAccessWebcam);; ret (false, initial_locals)
  else run_loop frames initial_locals.


(** How often a trace polls [get_busy]. *)
Definition is_poll (ev : event) : bool :=
  match ev with
  | MusicGetBusy => true
  | _ => false
  end.

Definition polls (log : list event) : nat :=
  length (List.filter is_poll log).

(** The history after a sequence of appends, oldest first. *)
Definition pushes (categories : list string) (self : Player) : Player :=
  fold_left (λ p c, history_append c p) categories self.

(** ** Specification-side notions *)

(** How often a category occurs in a history. *)
Fixpoint occurrences (c : string) (history : list string) : nat :=
  match history with
  | [] => 0
  | x :: history' =>
      (if String.eqb x c then 1 else 0) + occurrences c history'
  end.

(** The grouping table as the specification words it: happy to happy; sad,
    fear and angry to sad; neutral, surprise and disgust to neutral; any
    other label to neutral. *)
Definition grouping_table (label : string) : string :=
  if decide (label = "happy") then "happy"
  else if decide (label = "sad" ∨ label = "fear" ∨ label = "angry")
  then "sad"
  else if decide (label = "neutral" ∨ label = "surprise"
                  ∨ label = "disgust")
  then "neutral"
  else "neutral".


(** What must hold of the pending candidate between iterations. *)
Definition gate_invariant (self : Player) (loc : Locals) : Prop :=
  (∀ p, pending_emotion loc = Some p → current_emotion self ≠ Some p)
  ∧ (pending_emotion loc ≠ None → pending_emotion_time loc ≠ None).

(** A frame on which the camera delivers an image and the classifier is not
    consulted or sees nothing; the mixer is idle. *)
Definition quiet_frame (t : Q) : Frame :=
  {| read_ok := true; detection := inr []; now := t; busy := false;
     choice := 0; load_error := None; play_error := None; key_q := false |}.

(** A frame on which the classifier sees one face with the single score
    [label: 0.9]; the mixer is busy. *)
Definition face_frame (label : string) (t : Q) : Frame :=
  {| read_ok := true;
     detection := inr [ {| box := (0, 0, 10, 10)%Z;
                           emotions := [(label, 9 # 10)] |} ];
     now := t; busy := true; choice := 0; load_error := None;
     play_error := None; key_q := false |}.

(** The frames the camera delivers when every third one, the analysed one,
    shows a face with the given label at the given time, and the two after
    it are skipped. *)
Definition camera (shots : list (string * Q)) : list Frame :=
  flat_map (λ shot, [face_frame shot.1 shot.2; quiet_frame shot.2;
                     quiet_frame shot.2]) shots.

(** ** [load_songs], [__init__] and [main] *)

(** What the file system answers for a path: nothing there, a regular file,
    or a directory with the names [os.listdir] returns, in that order. The
    path is the string the program computes; no normalisation is modelled. *)
Inductive fs_entry : Type :=
| RegularFile
| Directory (names : list string).

Definition filesystem : Type := string → option fs_entry.

(** [os.path.exists(path)] *)
Definition path_exists (fs : filesystem) (path : string) : bool :=
  match fs path with
  | Some _ => true
  | None => false
  end.

(** [os.listdir(path)] *)
Definition listdir (fs : filesystem) (path : string) : exn + list string :=
  match fs path with
  | Some (Directory names) => inr names
  | Some RegularFile => inl (OtherError "NotADirectoryError")
  | None => inl (OtherError "FileNotFoundError")
  end.

(** [s.endswith(suffix)]: some tail of [s] is [suffix]. *)
Fixpoint str_endswith (s suffix : string) : bool :=
  String.eqb s suffix
  || match s with
     | EmptyString => false
     | String _ s' => str_endswith s' suffix
     end.

(** [os.path.join(a, b)] of [posixpath]: an absolute [b] replaces [a];
    otherwise the two are joined by one separator unless [a] is empty or
    already ends with it. *)
Definition path_join (a b : string) : string :=
  if String.prefix "/" b then b
  else if String.eqb a "" || str_endswith a "/" then String.append a b
  else String.append a (String.append "/" b).

(** [file.endswith(('.mp3', '.wav', '.ogg', '.flac'))] *)
Definition audio_extensions : list string := [".mp3"; ".wav"; ".ogg"; ".flac"].

Definition has_audio_extension (file : string) : bool :=
  existsb (str_endswith file) audio_extensions.

(** The line [load_songs] prints. *)
Inductive load_message : Type :=
| NoSongsFound (folder_path : string).

(** The loop [for file in os.listdir(folder_path)] with its
    [songs[emotion].append(...)]; the subscript raises [KeyError] on a
    missing key. *)
Fixpoint scan_files (folder_path emotion : string) (files : list string)
    (songs : gmap string (list string)) : exn + gmap string (list string) :=
  match files with
  | [] => inr songs
  | file :: files' =>
      if has_audio_extension file then
        match songs !! emotion with
        | Some tracks =>
            scan_files folder_path emotion files'
              (<[emotion := tracks ++ [path_join folder_path file]]> songs)
        | None => inl (OtherError "KeyError")
        end
      else scan_files folder_path emotion files' songs
  end.

(** The loop [for emotion in ['happy', 'sad', 'neutral']]. The result pairs
    what the loop returns or raises with the warnings printed until then. *)
Fixpoint load_folders (fs : filesystem) (songs_dir : string)
    (emotions : list string) (songs : gmap string (list string))
    : (exn + gmap string (list string)) * list load_message :=
  match emotions with
  | [] => (inr songs, [])
  | emotion :: emotions' =>
      let folder_path := path_join songs_dir emotion in
      let scanned :=
        if path_exists fs folder_path then
          match listdir fs folder_path with
          | inl e => inl e
          | inr files => scan_files folder_path emotion files songs
          end
        else inr songs in
      match scanned with
      | inl e => (inl e, [])
      | inr songs' =>
          match songs' !! emotion with
          | None => (inl (OtherError "KeyError"), [])
          | Some tracks =>
              let warning :=
                match tracks with
                | [] => [NoSongsFound folder_path]
                | _ => []
                end in
              let rest := load_folders fs songs_dir emotions' songs' in
              (rest.1, warning ++ rest.2)
          end
      end
  end.

Definition load_songs (fs : filesystem) (songs_dir : string)
    : (exn + gmap string (list string)) * list load_message :=
  load_folders fs songs_dir ["happy"; "sad"; "neutral"]
    (<["happy" := []]> (<["sad" := []]> (<["neutral" := []]> ∅))).

(** What [__init__] prints and does to the mixer. *)
Inductive startup_event : Type :=
| DetectorReady
| MixerInit
| LoadWarning (m : load_message)
| Initialized
| SongsLoaded (total : nat).

(** What the outside answers while the player is constructed: what
    [FER(mtcnn=False)] and [pygame.mixer.init()] raise, if anything. *)
Record Startup : Type := mkStartup {
  detector_error : option exn;
  mixer_init_error : option exn
}.

(** [sum(len(v) for v in self.songs.values())] *)
Definition total_songs (catalog : gmap string (list string)) : nat :=
  sum_list (length <$> (map_to_list catalog).*2).

(** [EmotionMusicPlayer(songs_dir)], with [use_mtcnn = False] as the source
    fixes it. *)
Definition construct (st : Startup) (fs : filesystem) (songs_dir : string)
    : (exn + Player) * list startup_event :=
  match detector_error st with
  | Some e => (inl e, [])
  | None =>
      match mixer_init_error st with
      | Some e => (inl e, [DetectorReady; MixerInit])
      | None =>
          let loaded := load_songs fs songs_dir in
          let log := [DetectorReady; MixerInit] ++ (LoadWarning <$> loaded.2) in
          match loaded.1 with
          | inl e => (inl e, log)
          | inr catalog =>
              (inr (init catalog),
               log ++ [Initialized; SongsLoaded (total_songs catalog)])
          end
      end
  end.

(** [main()]: construct the player on ["songs"] and run it. The result is
    what the construction printed and, when it did not raise, the outcome of
    [run]. *)
Definition main (st : Startup) (fs : filesystem) (opened : bool)
    (frames : list Frame)
    : list startup_event
      * (exn + (exn + bool * Locals) * Player * list event) :=
  match construct st fs "songs" with
  | (inl e, log) => (log, inl e)
  | (inr player, log) => (log, inr (run opened frames player))
  end.

(** ** Notions used to state the run-time properties *)

(** The three mood categories. *)
Definition moods : list string := ["happy"; "sad"; "neutral"].

(** [song] is a track of some bucket of the catalog. *)
Definition in_catalog (catalog : gmap string (list string)) (song : string)
    : Prop :=
  ∃ mood tracks, catalog !! mood = Some tracks ∧ song ∈ tracks.

(** The songs a trace loads into the mixer. *)
Definition loaded_songs (log : list event) : list string :=
  omap (λ ev, match ev with MusicLoad song => Some song | _ => None end) log.

(** The tracks [load_songs] is expected to find for one emotion: the audio
    files of the emotion's folder, each joined to the folder, in listing
    order; none when the folder is missing. *)
Definition folder_tracks (fs : filesystem) (songs_dir emotion : string)
    : list string :=
  match fs (path_join songs_dir emotion) with
  | Some (Directory names) =>
      path_join (path_join songs_dir emotion)
        <$> List.filter has_audio_extension names
  | _ => []
  end.

(** The frame with the classifier's answer replaced. *)
Definition set_detection (d : exn + list face) (fr : Frame) : Frame :=
  {| read_ok := read_ok fr; detection := d; now := now fr; busy := busy fr;
     choice := choice fr; load_error := load_error fr;
     play_error := play_error fr; key_q := key_q fr |}.

(** What an iteration returns once the analysis block is through with the
    locals [loc], the player [self] and the trace [log]: on the quit key the
    stopping line is printed and the loop left, otherwise the frame counter
    advances. *)
Definition after_analysis (fr : Frame) (loc : Locals) (self : Player)
    (log : list event) : (exn + bool * Locals) * Player * list event :=
  if key_q fr then (inr (false, loc), self, log ++ [Print Stopping])
  else (inr (true, set_frame_count (frame_count loc + 1) loc), self, log).

(** A frame ends the loop when the camera fails or the quit key is down. *)
Definition exits (fr : Frame) : bool := negb (read_ok fr) || key_q fr.

(** The settings of the player that a run is not meant to touch. *)
Record same_settings (a b : Player) : Prop := mk_same_settings {
  same_songs : songs a = songs b;
  same_stability_threshold :
    emotion_stability_threshold a = emotion_stability_threshold b;
  same_confidence_threshold : confidence_threshold a = confidence_threshold b;
  same_detection_frequency : detection_frequency a = detection_frequency b
}.

(** What holds of the player between iterations of the main loop. *)
Record well_formed (self : Player) : Prop := mk_well_formed {
  wf_length : length (emotion_history self) ≤ 10;
  wf_history : ∀ c, c ∈ emotion_history self → c ∈ moods;
  wf_current : ∀ c, current_emotion self = Some c → c ∈ moods;
  wf_song :
    ∀ song, current_song self = Some song → in_catalog (songs self) song
}.

(** The events of the cleanup after the loop. *)
Definition cleanup_events : list event := [MusicStop; MixerQuit; Print Stopped].

(** The locals a run ended with, if it raised nothing. *)
Definition final_locals (r : (exn + bool * Locals) * Player * list event)
    : option Locals :=
  match r.1.1 with
  | inr (_, loc) => Some loc
  | inl _ => None
  end.

(** * Properties *)

Ltac unfold_M :=
  unfold mbind, M_bind, mret, M_ret, bind, ret, raise, emit, get_self,
    put_self, lift, try_except in *.



(** ** [max] *)

Section PyMax.
Context {A K : Type} (ltb : K → K → bool) (le : K → K → Prop) (key : A → K).
Hypothesis ltb_false : ∀ a b, ltb a b = false → le b a.
Hypothesis ltb_true : ∀ a b, ltb a b = true → le a b.
Hypothesis le_refl : ∀ a, le a a.
Hypothesis le_trans : ∀ a b c, le a b → le b c → le a c.

Lemma max_from_elem (best : A) (l : list A) :
  max_from ltb key best l ∈ best :: l.
Proof.
  revert best. induction l as [|x l IH]; intros best; simpl.
  - apply list_elem_of_here.
  - destruct (ltb (key best) (key x)).
    + apply list_elem_of_further, IH.
    + specialize (IH best). apply elem_of_cons in IH as [->|IH].
      * apply list_elem_of_here.
      * do 2 apply list_elem_of_further. exact IH.
Qed.

Lemma max_from_upper (best : A) (l : list A) (x : A) :
  x ∈ best :: l → le (key x) (key (max_from ltb key best l)).
Proof.
  revert best x. induction l as [|y l IH]; intros best x Hx; simpl.
  - apply list_elem_of_singleton in Hx as ->. apply le_refl.
  - destruct (ltb (key best) (key y)) eqn:E.
    + apply elem_of_cons in Hx as [->|Hx].
      * eapply le_trans; [apply ltb_true, E|].
        apply IH, list_elem_of_here.
      * apply IH, Hx.
    + apply elem_of_cons in Hx as [->|Hx].
      * apply IH, list_elem_of_here.
      * apply elem_of_cons in Hx as [->|Hx].
        -- eapply le_trans; [apply ltb_false, E|].
           apply IH, list_elem_of_here.
        -- apply IH, list_elem_of_further, Hx.
Qed.
End PyMax.

Section PyMaxFirst.
Context {A K : Type} (ltb : K → K → bool) (lt le : K → K → Prop)
  (key : A → K).
Hypothesis ltb_false : ∀ a b, ltb a b = false → le b a.
Hypothesis ltb_true : ∀ a b, ltb a b = true → lt a b.
Hypothesis lt_trans : ∀ a b c, lt a b → lt b c → lt a c.
Hypothesis le_lt_trans : ∀ a b c, le a b → lt b c → lt a c.

(** The winner is the first of the items with the greatest key: everything
    before it has a strictly smaller key. [pre] is what came before the
    current best and [mid] what was passed over since. *)
Lemma max_from_first (pre : list A) (best : A) (mid l : list A) :
  (∀ x, x ∈ pre → lt (key x) (key best)) →
  (∀ z, z ∈ mid → le (key z) (key best)) →
  ∃ pre' post,
    pre ++ best :: mid ++ l = pre' ++ max_from ltb key best l :: post
    ∧ ∀ x, x ∈ pre' → lt (key x) (key (max_from ltb key best l)).
Proof.
  revert pre best mid. induction l as [|y l IH]; intros pre best mid Hpre Hmid.
  - exists pre, mid. by rewrite app_nil_r.
  - simpl. destruct (ltb (key best) (key y)) eqn:E.
    + destruct (IH (pre ++ best :: mid) y []) as (pre' & post & Heq & Hlt).
      * intros x Hx. apply elem_of_app in Hx as [Hx|Hx].
        { eapply lt_trans; [by apply Hpre|by apply ltb_true]. }
        apply elem_of_cons in Hx as [->|Hx]; [by apply ltb_true|].
        eapply le_lt_trans; [by apply Hmid|by apply ltb_true].
      * intros z Hz. by apply elem_of_nil in Hz.
      * exists pre', post. split; [|done].
        rewrite <- Heq. simpl. by rewrite <- app_assoc.
    + destruct (IH pre best (mid ++ [y])) as (pre' & post & Heq & Hlt).
      * done.
      * intros z Hz. apply elem_of_app in Hz as [Hz|Hz]; [by apply Hmid|].
        apply list_elem_of_singleton in Hz as ->. by apply ltb_false.
      * exists pre', post. split; [|done].
        rewrite <- Heq. by rewrite <- app_assoc.
Qed.
End PyMaxFirst.

Lemma Qltb_false (a b : Q) : Qltb a b = false → (b <= a)%Q.
Proof.
  unfold Qltb. intros H. apply negb_false_iff in H.
  by apply Qle_bool_iff.
Qed.

Lemma Qltb_true (a b : Q) : Qltb a b = true → (a < b)%Q.
Proof.
  unfold Qltb. intros H. apply negb_true_iff in H.
  apply Qnot_le_lt. intros Hle. apply Qle_bool_iff in Hle. congruence.
Qed.

Lemma Qltb_lt (a b : Q) : (a < b)%Q → Qltb a b = true.
Proof.
  intros H. destruct (Qltb a b) eqn:E; [done|].
  apply Qltb_false in E. lra.
Qed.

Lemma Qltb_ge (a b : Q) : (b <= a)%Q → Qltb a b = false.
Proof.
  intros H. destruct (Qltb a b) eqn:E; [|done].
  apply Qltb_true in E. lra.
Qed.

(** The winner of [max(emotions.items(), key=lambda x: x[1])] is an entry of
    the mapping, no entry has a greater score, and every entry before it has
    a smaller one. *)
Lemma dominant_is_max (e0 : string * Q) (emotions : list (string * Q)) :
  let w := max_from Qltb snd e0 emotions in
  w ∈ e0 :: emotions
  ∧ (∀ x, x ∈ e0 :: emotions → (x.2 <= w.2)%Q)
  ∧ ∃ before after,
      e0 :: emotions = before ++ w :: after
      ∧ ∀ x, x ∈ before → (x.2 < w.2)%Q.
Proof.
  split_and!.
  - apply max_from_elem.
  - intros x Hx.
    apply (max_from_upper Qltb Qle snd); try done.
    + apply Qltb_false.
    + intros a b H. apply Qlt_le_weak, Qltb_true, H.
    + apply Qle_refl.
    + apply Qle_trans.
  - destruct (max_from_first Qltb Qlt Qle snd Qltb_false Qltb_true
                Qlt_trans Qle_lt_trans [] e0 [] emotions)
      as (before & after & Heq & Hlt).
    + intros x Hx. by apply elem_of_nil in Hx.
    + intros x Hx. by apply elem_of_nil in Hx.
    + by exists before, after.
Qed.

(** ** The normalizer, [get_dominant_emotion_category] *)

Lemma map_category_table (label : string) :
  map_category emotion_categories label "neutral" = grouping_table label.
Proof.
  unfold grouping_table, emotion_categories, map_category, str_in, existsb.
  repeat match goal with
  | |- context [String.eqb ?a ?b] =>
      destruct (String.eqb_spec a b); simpl
  end;
  repeat case_decide; try done; intuition congruence.
Qed.

(** C10: on the empty mapping the normalizer returns [None], and
    [(None, 0.0)] when the confidence is requested; on every mapping it
    returns a value and raises nothing. *)
Theorem normalizer_total_and_empty (self : Player) :
  get_dominant_emotion_category self [] false = inr (Bare None)
  ∧ get_dominant_emotion_category self [] true
    = inr (WithConfidence None 0)
  ∧ ∀ emotions return_confidence,
      ∃ d, get_dominant_emotion_category self emotions return_confidence
           = inr d.
Proof.
  split_and!; [done..|].
  intros [|e0 emotions] rc; simpl; [eauto|].
  destruct (max_from Qltb snd e0 emotions) as [label confidence].
  destruct (Qltb confidence (confidence_threshold self)); eauto.
Qed.

(** C3: a non-empty mapping all of whose scores, hence its maximum, are
    strictly below the confidence threshold is normalized to [None]; with
    [return_confidence] the pair carries the maximum score of the mapping.
    The labels play no part. *)
Theorem normalizer_below_threshold (self : Player)
    (emotions : list (string * Q)) :
  emotions ≠ [] →
  (∀ label score, (label, score) ∈ emotions →
     (score < confidence_threshold self)%Q) →
  get_dominant_emotion_category self emotions false = inr (Bare None)
  ∧ ∃ label confidence,
      get_dominant_emotion_category self emotions true
        = inr (WithConfidence None confidence)
      ∧ (label, confidence) ∈ emotions
      ∧ ∀ l s, (l, s) ∈ emotions → (s <= confidence)%Q.
Proof.
  intros Hne Hlow. destruct emotions as [|e0 emotions]; [done|].
  destruct (dominant_is_max e0 emotions) as (Hin & Hmax & _).
  simpl. destruct (max_from Qltb snd e0 emotions) as [label confidence].
  rewrite (Qltb_lt _ _ (Hlow _ _ Hin)). split; [done|].
  exists label, confidence. split_and!; [done..|].
  intros l s Hls. apply (Hmax (l, s) Hls).
Qed.

Lemma normalizer_below_threshold_witness :
  let emotions := [("happy", 2 # 10); ("zzz", 1 # 4)]%Q in
  get_dominant_emotion_category (init ∅) emotions false = inr (Bare None)
  ∧ ∃ label confidence,
      get_dominant_emotion_category (init ∅) emotions true
        = inr (WithConfidence None confidence)
      ∧ (label, confidence) ∈ emotions
      ∧ ∀ l s, (l, s) ∈ emotions → (s <= confidence)%Q.
Proof.
  apply (normalizer_below_threshold (init ∅)); [done|].
  intros label score H. simpl.
  apply elem_of_cons in H as [H|H]; [injection H as -> ->; reflexivity|].
  apply list_elem_of_singleton in H. injection H as -> ->. reflexivity.
Defined.

(** C4: when some score of the mapping, hence its maximum, meets the
    threshold, the result is the grouping-table image of the winning label,
    the first one in the mapping's order that holds the maximum score; the
    table sends happy to happy, sad, fear and angry to
    sad, neutral, surprise and disgust to neutral, and any other label to
    neutral. *)
Theorem normalizer_grouping (self : Player) (emotions : list (string * Q))
    (label0 : string) (score0 : Q) :
  (label0, score0) ∈ emotions →
  (confidence_threshold self <= score0)%Q →
  (∃ label confidence before after,
      emotions = before ++ (label, confidence) :: after
      ∧ (∀ l s, (l, s) ∈ before → (s < confidence)%Q)
      ∧ (∀ l s, (l, s) ∈ emotions → (s <= confidence)%Q)
      ∧ get_dominant_emotion_category self emotions false
        = inr (Bare (Some (grouping_table label)))
      ∧ get_dominant_emotion_category self emotions true
        = inr (WithConfidence (Some (grouping_table label)) confidence))
  ∧ map_category emotion_categories "happy" "neutral" = "happy"
  ∧ map_category emotion_categories "sad" "neutral" = "sad"
  ∧ map_category emotion_categories "fear" "neutral" = "sad"
  ∧ map_category emotion_categories "angry" "neutral" = "sad"
  ∧ map_category emotion_categories "neutral" "neutral" = "neutral"
  ∧ map_category emotion_categories "surprise" "neutral" = "neutral"
  ∧ map_category emotion_categories "disgust" "neutral" = "neutral"
  ∧ ∀ label,
      label ∉ ["happy"; "sad"; "fear"; "angry"; "neutral"; "surprise";
               "disgust"] →
      map_category emotion_categories label "neutral" = "neutral".
Proof.
  intros Hin Hthr. split_and!; try reflexivity.
  - destruct emotions as [|e0 emotions]; [by apply elem_of_nil in Hin|].
    destruct (dominant_is_max e0 emotions)
      as (Hw & Hmax & before & after & Heq & Hfirst).
    cbn [get_dominant_emotion_category py_max].
    destruct (max_from Qltb snd e0 emotions) as [label confidence].
    assert (confidence_threshold self <= confidence)%Q as Hc.
    { eapply Qle_trans; [exact Hthr|]. apply (Hmax _ Hin). }
    rewrite (Qltb_ge _ _ Hc), map_category_table.
    exists label, confidence, before, after. split_and!; try done.
    + intros l s Hls. apply (Hfirst (l, s) Hls).
    + intros l s Hls. apply (Hmax (l, s) Hls).
  - intros label Hnot. rewrite map_category_table. unfold grouping_table.
    rewrite !not_elem_of_cons in Hnot.
    repeat case_decide; try done; intuition congruence.
Qed.

Lemma normalizer_grouping_witness :
  ∃ label confidence before after,
    [("happy", 1 # 10); ("angry", 6 # 10)]%Q
    = before ++ (label, confidence) :: after
    ∧ get_dominant_emotion_category (init ∅)
        [("happy", 1 # 10); ("angry", 6 # 10)]%Q true
      = inr (WithConfidence (Some (grouping_table label)) confidence).
Proof.
  destruct (normalizer_grouping (init ∅)
              [("happy", 1 # 10); ("angry", 6 # 10)]%Q "angry" (6 # 10)%Q)
    as [(label & confidence & before & after & H1 & _ & _ & _ & H2) _].
  - apply list_elem_of_further, list_elem_of_here.
  - simpl. unfold Qle. simpl. lia.
  - exists label, confidence, before, after. split; assumption.
Defined.

(** ** The emotion history, a [deque(maxlen=10)] *)

Lemma deque_append_length {A : Type} (maxlen : nat) (d : list A) (x : A) :
  length d ≤ maxlen → length (deque_append maxlen d x) ≤ maxlen.
Proof.
  intros H. unfold deque_append.
  destruct (Nat.ltb_spec maxlen (length (d ++ [x]))) as [Hlt|Hge].
  - rewrite length_drop, length_app. simpl. lia.
  - exact Hge.
Qed.

Lemma pushes_snoc (categories : list string) (c : string) (self : Player) :
  pushes (categories ++ [c]) self = history_append c (pushes categories self).
Proof. unfold pushes. by rewrite fold_left_app. Qed.

Lemma pushes_length (categories : list string) (self : Player) :
  length (emotion_history self) ≤ history_maxlen →
  length (emotion_history (pushes categories self)) ≤ history_maxlen.
Proof.
  intros H. induction categories as [|c categories IH] using rev_ind.
  - exact H.
  - rewrite pushes_snoc. simpl. by apply deque_append_length.
Qed.

(** Pushed onto an empty history, a sequence leaves its last ten items, in
    the order they were pushed. *)
Lemma pushes_from_empty (categories : list string) (self : Player) :
  emotion_history self = [] →
  emotion_history (pushes categories self)
  = drop (length categories - history_maxlen) categories.
Proof.
  intros Hempty. induction categories as [|c categories IH] using rev_ind.
  - exact Hempty.
  - rewrite pushes_snoc. simpl. rewrite IH. unfold deque_append.
    rewrite !length_app, length_drop. simpl. unfold history_maxlen.
    destruct (Nat.ltb_spec 10
                (length categories - (length categories - 10) + 1))
      as [Hlt|Hge].
    + rewrite drop_app_le by (rewrite length_drop; lia).
      rewrite drop_drop.
      rewrite drop_app_le by lia.
      f_equal. f_equal. lia.
    + replace (length categories - 10) with 0 by lia.
      replace (length categories + 1 - 10) with 0 by lia.
      by rewrite !drop_0.
Qed.

(** C5: whatever is pushed, the history never holds more than ten entries;
    and after eleven pushes onto the empty history the entry pushed first is
    gone: what is left is the second to the eleventh push, in order, so the
    first pushed value is absent unless it was pushed again. *)
Theorem history_capacity_fifo (self : Player) :
  (∀ categories,
     length (emotion_history self) ≤ 10 →
     length (emotion_history (pushes categories self)) ≤ 10)
  ∧ (∀ first rest,
       emotion_history self = [] →
       length (first :: rest) = 11 →
       emotion_history (pushes (first :: rest) self) = rest
       ∧ (first ∉ rest →
          first ∉ emotion_history (pushes (first :: rest) self))).
Proof.
  split.
  - intros categories H. by apply pushes_length.
  - intros first rest Hempty Hlen.
    assert (emotion_history (pushes (first :: rest) self) = rest) as ->.
    { rewrite pushes_from_empty by done. rewrite Hlen. reflexivity. }
    done.
Qed.

Lemma history_capacity_fifo_witness :
  let eleven := ["sad"; "happy"; "happy"; "happy"; "happy"; "happy";
                 "happy"; "happy"; "happy"; "happy"; "neutral"] in
  length (emotion_history (pushes eleven (init ∅))) ≤ 10
  ∧ emotion_history (pushes eleven (init ∅)) = tail eleven
  ∧ "sad" ∉ emotion_history (pushes eleven (init ∅)).
Proof.
  destruct (history_capacity_fifo (init ∅)) as [Hcap Hfifo].
  split; [apply Hcap; simpl; lia|].
  destruct (Hfifo "sad" ["happy"; "happy"; "happy"; "happy"; "happy";
                         "happy"; "happy"; "happy"; "happy"; "neutral"])
    as [Heq Hnot]; [reflexivity..|].
  split; [exact Heq|]. apply Hnot.
  rewrite !not_elem_of_cons. split_and!; try discriminate.
  apply not_elem_of_nil.
Defined.

(** ** The smoother, [get_smoothed_emotion] *)

Lemma dict_get_set (d : list (string * nat)) (k k' : string) (v dflt : nat) :
  dict_get (dict_set d k v) k' dflt
  = if String.eqb k k' then v else dict_get d k' dflt.
Proof.
  induction d as [|[k0 v0] d IH]; simpl.
  - reflexivity.
  - destruct (String.eqb_spec k0 k) as [->|Hne]; simpl.
    + by destruct (String.eqb k k').
    + destruct (String.eqb_spec k0 k') as [->|Hne'].
      * destruct (String.eqb_spec k k'); [congruence|done].
      * exact IH.
Qed.

Lemma dict_set_keys (d : list (string * nat)) (k k' : string) (v : nat) :
  k' ∈ (dict_set d k v).*1 → k' = k ∨ k' ∈ d.*1.
Proof.
  induction d as [|[k0 v0] d IH]; simpl.
  - intros H. apply list_elem_of_singleton in H. by left.
  - destruct (String.eqb_spec k0 k) as [->|Hne]; simpl.
    + intros H. by right.
    + intros H. apply elem_of_cons in H as [->|H].
      * right. apply list_elem_of_here.
      * destruct (IH H) as [->|H']; [by left|].
        right. by apply list_elem_of_further.
Qed.

Lemma dict_set_NoDup (d : list (string * nat)) (k : string) (v : nat) :
  NoDup d.*1 → NoDup (dict_set d k v).*1.
Proof.
  induction d as [|[k0 v0] d IH]; simpl; intros H.
  - apply NoDup_singleton.
  - destruct (String.eqb_spec k0 k) as [->|Hne]; simpl; [exact H|].
    apply NoDup_cons in H as [Hnot H]. apply NoDup_cons. split.
    + intros Hin. apply dict_set_keys in Hin as [->|Hin]; done.
    + by apply IH.
Qed.

Lemma dict_get_elem_NoDup (d : list (string * nat)) (k : string)
    (v dflt : nat) :
  NoDup d.*1 → (k, v) ∈ d → dict_get d k dflt = v.
Proof.
  induction d as [|[k0 v0] d IH]; simpl; intros Hnd Hin.
  - by apply elem_of_nil in Hin.
  - apply NoDup_cons in Hnd as [Hnot Hnd].
    apply elem_of_cons in Hin as [Heq|Hin].
    + injection Heq as -> ->. by rewrite String.eqb_refl.
    + destruct (String.eqb_spec k0 k) as [->|Hne]; [|by apply IH].
      exfalso. apply Hnot. apply list_elem_of_fmap. by exists (k, v).
Qed.

Lemma dict_get_elem (d : list (string * nat)) (k : string) :
  dict_get d k 0 ≠ 0 → (k, dict_get d k 0) ∈ d.
Proof.
  induction d as [|[k0 v0] d IH]; simpl; intros H.
  - done.
  - destruct (String.eqb_spec k0 k) as [->|Hne].
    + apply list_elem_of_here.
    + apply list_elem_of_further, IH, H.
Qed.

Lemma count_emotions_NoDup (history : list string)
    (counts : list (string * nat)) :
  NoDup counts.*1 → NoDup (count_emotions history counts).*1.
Proof.
  revert counts. induction history as [|e history IH]; intros counts H.
  - exact H.
  - simpl. destruct (negb (String.eqb e "")); apply IH; [|exact H].
    by apply dict_set_NoDup.
Qed.

Lemma count_emotions_get (history : list string)
    (counts : list (string * nat)) (k : string) :
  (∀ e, e ∈ history → e ≠ "") →
  dict_get (count_emotions history counts) k 0
  = dict_get counts k 0 + occurrences k history.
Proof.
  revert counts. induction history as [|e history IH]; intros counts Ht.
  - simpl. lia.
  - simpl. destruct (String.eqb_spec e "") as [->|Hne]; simpl.
    + exfalso. apply (Ht ""); [apply list_elem_of_here|done].
    + rewrite IH by (intros e' He'; by apply Ht, list_elem_of_further).
      rewrite dict_get_set.
      destruct (String.eqb_spec e k) as [->|Hne']; lia.
Qed.

Lemma occurrences_elem (c : string) (history : list string) :
  occurrences c history ≠ 0 → c ∈ history.
Proof.
  induction history as [|x history IH]; simpl; [done|].
  destruct (String.eqb_spec x c) as [->|Hne]; intros H.
  - apply list_elem_of_here.
  - apply list_elem_of_further, IH, H.
Qed.

(** With at least three entries, none of them empty, the smoothed emotion is
    an entry that no category occurs more often than. *)
Lemma smoothed_most_frequent (self : Player) :
  3 ≤ length (emotion_history self) →
  (∀ e, e ∈ emotion_history self → e ≠ "") →
  ∃ c, get_smoothed_emotion self = inr (Some c)
       ∧ c ∈ emotion_history self
       ∧ ∀ d, occurrences d (emotion_history self)
              ≤ occurrences c (emotion_history self).
Proof.
  intros Hlen Ht. unfold get_smoothed_emotion.
  destruct (Nat.ltb_spec (length (emotion_history self)) 3); [lia|].
  set (h := emotion_history self) in *.
  pose proof (count_emotions_NoDup h [] (NoDup_nil_2)) as Hnd.
  assert (∀ k, dict_get (count_emotions h []) k 0 = occurrences k h) as Hget.
  { intros k. by rewrite count_emotions_get. }
  destruct h as [|x h'] eqn:Eh; [simpl in Hlen; lia|]. rewrite <- Eh in *.
  assert (occurrences x h ≠ 0) as Hx.
  { rewrite Eh. simpl. rewrite String.eqb_refl. lia. }
  destruct (count_emotions h []) as [|i0 counts] eqn:Ec.
  { specialize (Hget x). simpl in Hget. congruence. }
  cbn [py_max].
  pose proof (max_from_elem Nat.ltb snd i0 counts) as Hin.
  pose proof (@max_from_upper (string * nat) nat Nat.ltb le snd) as Hup.
  specialize (Hup ltac:(intros a b ?%Nat.ltb_ge; lia)
                  ltac:(intros a b ?%Nat.ltb_lt; lia)
                  ltac:(intros; lia) ltac:(intros; lia) i0 counts).
  destruct (max_from Nat.ltb snd i0 counts) as [c n]. cbn [fst snd] in *.
  assert (n = occurrences c h) as Hn.
  { rewrite <- Hget. symmetry. by apply dict_get_elem_NoDup. }
  assert (∀ d, occurrences d h ≤ n) as Hmax.
  { intros d. destruct (decide (occurrences d h = 0)) as [->|Hd]; [lia|].
    rewrite <- Hget in Hd. apply dict_get_elem in Hd.
    rewrite Hget in Hd. apply (Hup _ Hd). }
  exists c. split_and!; [done| |].
  - apply occurrences_elem. specialize (Hmax x). lia.
  - intros d. rewrite <- Hn. apply Hmax.
Qed.

(** C2: with fewer than three entries the smoothed emotion is [None]; after
    exactly three pushes of one category onto the empty history, which then
    has length three, it is that category; and in general, from three entries
    on, it is a category of the history that occurs at least as often as any
    other. *)
Theorem smoothed_emotion_spec (self : Player) :
  (length (emotion_history self) < 3 → get_smoothed_emotion self = inr None)
  ∧ (∀ c, c ≠ "" → emotion_history self = [] →
       length (emotion_history (pushes [c; c; c] self)) = 3
       ∧ get_smoothed_emotion (pushes [c; c; c] self) = inr (Some c))
  ∧ (3 ≤ length (emotion_history self) →
     (∀ e, e ∈ emotion_history self → e ≠ "") →
     ∃ c, get_smoothed_emotion self = inr (Some c)
          ∧ c ∈ emotion_history self
          ∧ ∀ d, occurrences d (emotion_history self)
                 ≤ occurrences c (emotion_history self)).
Proof.
  split_and!.
  - intros H. unfold get_smoothed_emotion.
    by destruct (Nat.ltb_spec (length (emotion_history self)) 3); [|lia].
  - intros c Hc Hempty.
    assert (emotion_history (pushes [c; c; c] self) = [c; c; c]) as Hh.
    { by rewrite pushes_from_empty. }
    split; [by rewrite Hh|].
    unfold get_smoothed_emotion. rewrite Hh. simpl.
    apply String.eqb_neq in Hc. rewrite Hc. simpl.
    rewrite !String.eqb_refl. simpl. by rewrite !String.eqb_refl.
  - apply smoothed_most_frequent.
Qed.

Lemma smoothed_emotion_spec_witness :
  get_smoothed_emotion (pushes ["happy"; "happy"] (init ∅)) = inr None
  ∧ get_smoothed_emotion (pushes ["sad"; "sad"; "sad"] (init ∅))
    = inr (Some "sad")
  ∧ ∃ c, get_smoothed_emotion
           (pushes ["sad"; "happy"; "neutral"; "happy"] (init ∅))
         = inr (Some c)
         ∧ ∀ d, occurrences d ["sad"; "happy"; "neutral"; "happy"]
                ≤ occurrences c ["sad"; "happy"; "neutral"; "happy"].
Proof.
  split_and!.
  - apply (smoothed_emotion_spec (pushes ["happy"; "happy"] (init ∅))).
    simpl. lia.
  - apply (smoothed_emotion_spec (init ∅)); [discriminate|reflexivity].
  - destruct (smoothed_emotion_spec
                (pushes ["sad"; "happy"; "neutral"; "happy"] (init ∅)))
      as (_ & _ & H).
    destruct H as (c & Hc & _ & Hmax).
    + simpl. lia.
    + intros e He.
      change (e ∈ ["sad"; "happy"; "neutral"; "happy"]) in He.
      rewrite !elem_of_cons in He.
      destruct He as [->|[->|[->|[->|He]]]]; try discriminate.
      by apply elem_of_nil in He.
    + exists c. split; [exact Hc|exact Hmax].
Defined.

(** ** The playback selector, [play_song_for_emotion] *)

Lemma random_choice_elem {A : Type} (seq : list A) (drawn : nat) :
  seq ≠ [] → ∃ x, random_choice seq drawn = inr x ∧ x ∈ seq.
Proof.
  intros Hne. unfold random_choice.
  assert (drawn mod length seq < length seq) as Hlt.
  { apply Nat.mod_upper_bound. by destruct seq. }
  apply lookup_lt_is_Some in Hlt as [x Hx]. rewrite Hx.
  exists x. split; [done|]. by eapply list_elem_of_lookup_2.
Qed.

(** What a call does once the bucket is known to hold tracks: it draws
    [song] from the bucket, stops the mixer, and then goes one of three
    ways with the load and the play. *)
Lemma play_song_with_tracks (self : Player) (emotion : option string)
    (fr : Frame) (tracks : list string) :
  bucket self emotion = Some tracks → tracks ≠ [] →
  ∃ song,
    song ∈ tracks
    ∧ play_song_for_emotion emotion fr self
      = match load_error fr, play_error fr with
        | Some e, _ =>
            (inr tt, self,
             [MusicStop; MusicLoad song; Print (ErrorPlayingSong e)])
        | None, Some e =>
            (inr tt, self,
             [MusicStop; MusicLoad song; MusicPlay;
              Print (ErrorPlayingSong e)])
        | None, None =>
            (inr tt, set_current_song (Some song) self,
             [MusicStop; MusicLoad song; MusicPlay;
              Print (NowPlaying emotion song)])
        end.
Proof.
  intros Hb Hne.
  destruct (random_choice_elem tracks (choice fr) Hne) as (song & Hc & Hin).
  exists song. split; [exact Hin|].
  unfold play_song_for_emotion, mbind, M_bind, bind, get_self.
  rewrite Hb. destruct tracks as [|t tracks]; [done|].
  rewrite Hc. unfold try_except, music_load, music_play, mbind, M_bind, bind.
  simpl.
  destruct (load_error fr) as [e|]; simpl; [done|].
  destruct (play_error fr) as [e|]; simpl; done.
Qed.

(** C7: on a mood whose bucket is absent or empty the call returns (with
    [None], as every call does), prints the warning and touches neither the
    player, so not [current_song], nor the mixer; on a mood whose bucket
    holds tracks the song it stops the mixer for and loads is one of that
    bucket, and it is the one recorded in [current_song] when load and play
    succeed. *)
Theorem play_song_selection (self : Player) (emotion : option string)
    (fr : Frame) :
  (bucket self emotion = None ∨ bucket self emotion = Some [] →
   play_song_for_emotion emotion fr self
   = (inr tt, self, [Print (NoSongsAvailable emotion)]))
  ∧ (∀ tracks,
       bucket self emotion = Some tracks → tracks ≠ [] →
       ∃ song self' log,
         song ∈ tracks
         ∧ play_song_for_emotion emotion fr self
           = (inr tt, self', MusicStop :: MusicLoad song :: log)
         ∧ (load_error fr = None → play_error fr = None →
            current_song self' = Some song)).
Proof.
  split.
  - intros [Hb|Hb];
      unfold play_song_for_emotion, mbind, M_bind, bind, get_self;
      rewrite Hb; reflexivity.
  - intros tracks Hb Hne.
    destruct (play_song_with_tracks self emotion fr tracks Hb Hne)
      as (song & Hin & Heq).
    exists song. rewrite Heq.
    destruct (load_error fr) as [e|]; [|destruct (play_error fr) as [e|]];
      eexists _, _; split_and!; try done.
Qed.

Lemma play_song_selection_witness :
  let catalog : gmap string (list string) :=
    <["happy" := ["a.mp3"; "b.mp3"]]> (<["neutral" := []]> ∅) in
  let fr := {| read_ok := true; detection := inr []; now := 0%Q;
               busy := false; choice := 3; load_error := None;
               play_error := None; key_q := false |} in
  play_song_for_emotion (Some "neutral") fr (init catalog)
  = (inr tt, init catalog, [Print (NoSongsAvailable (Some "neutral"))])
  ∧ play_song_for_emotion (Some "sad") fr (init catalog)
    = (inr tt, init catalog, [Print (NoSongsAvailable (Some "sad"))])
  ∧ ∃ song self' log,
      song ∈ ["a.mp3"; "b.mp3"]
      ∧ play_song_for_emotion (Some "happy") fr (init catalog)
        = (inr tt, self', MusicStop :: MusicLoad song :: log)
      ∧ current_song self' = Some song.
Proof.
  intros catalog fr. split_and!.
  - apply (play_song_selection (init catalog) (Some "neutral") fr).
    right. reflexivity.
  - apply (play_song_selection (init catalog) (Some "sad") fr).
    left. reflexivity.
  - destruct (play_song_selection (init catalog) (Some "happy") fr)
      as [_ H].
    destruct (H ["a.mp3"; "b.mp3"]) as (song & self' & log & H1 & H2 & H3);
      [reflexivity|discriminate|].
    exists song, self', log. split_and!; [exact H1|exact H2|].
    apply H3; reflexivity.
Defined.

(** C8: when the load or the play raises, the handler prints the error, the
    call returns normally, and [current_song] is not assigned: the player is
    as it was, so a [current_song] that was [None] still is. No call raises,
    whatever the collaborators do. *)
Theorem play_song_failure (self : Player) (emotion : option string)
    (fr : Frame) :
  (∀ tracks e,
     bucket self emotion = Some tracks → tracks ≠ [] →
     load_error fr = Some e
     ∨ (load_error fr = None ∧ play_error fr = Some e) →
     ∃ log,
       play_song_for_emotion emotion fr self = (inr tt, self, log)
       ∧ Print (ErrorPlayingSong e) ∈ log
       ∧ (current_song self = None →
          current_song (play_song_for_emotion emotion fr self).1.2 = None))
  ∧ (play_song_for_emotion emotion fr self).1.1 = inr tt.
Proof.
  split.
  - intros tracks e Hb Hne Hfail.
    destruct (play_song_with_tracks self emotion fr tracks Hb Hne)
      as (song & Hin & Heq).
    rewrite Heq.
    destruct Hfail as [-> | [-> ->]]; eexists; split_and!; try done;
      set_solver.
  - destruct (bucket self emotion) as [tracks|] eqn:Hb.
    + destruct (decide (tracks = [])) as [->|Hne].
      * unfold play_song_for_emotion, mbind, M_bind, bind, get_self.
        by rewrite Hb.
      * destruct (play_song_with_tracks self emotion fr tracks Hb Hne)
          as (song & Hin & ->).
        by destruct (load_error fr), (play_error fr).
    + unfold play_song_for_emotion, mbind, M_bind, bind, get_self.
      by rewrite Hb.
Qed.

Lemma play_song_failure_witness :
  let catalog : gmap string (list string) := <["sad" := ["b.mp3"]]> ∅ in
  let fr := {| read_ok := true; detection := inr []; now := 0%Q;
               busy := false; choice := 7;
               load_error := Some (OtherError "corrupt file");
               play_error := None; key_q := false |} in
  let self := set_current_song (Some "a.mp3") (init catalog) in
  ∃ log,
    play_song_for_emotion (Some "sad") fr self = (inr tt, self, log)
    ∧ Print (ErrorPlayingSong (OtherError "corrupt file")) ∈ log.
Proof.
  intros catalog fr self.
  destruct (play_song_failure self (Some "sad") fr) as [H _].
  destruct (H ["b.mp3"] (OtherError "corrupt file"))
    as (log & H1 & H2 & _);
    [reflexivity|discriminate|left; reflexivity|].
  exists log. split; [exact H1|exact H2].
Defined.

(** ** The stability check *)

Lemma py_eq_true (a b : option string) : py_eq a b = true ↔ a = b.
Proof.
  destruct a as [x|], b as [y|]; simpl; try (split; congruence).
  rewrite String.eqb_eq. split; congruence.
Qed.

Lemma py_eq_false (a b : option string) : py_eq a b = false ↔ a ≠ b.
Proof.
  rewrite <- py_eq_true. by destruct (py_eq a b).
Qed.

(** A call of [play_song_for_emotion] always returns, and of the player it
    can only change [current_song]. *)
Lemma play_song_frame (self : Player) (emotion : option string) (fr : Frame) :
  ∃ self' log,
    play_song_for_emotion emotion fr self = (inr tt, self', log)
    ∧ current_emotion self' = current_emotion self
    ∧ emotion_history self' = emotion_history self
    ∧ songs self' = songs self
    ∧ emotion_stability_threshold self' = emotion_stability_threshold self
    ∧ confidence_threshold self' = confidence_threshold self
    ∧ detection_frequency self' = detection_frequency self
    ∧ polls log = 0.
Proof.
  destruct (bucket self emotion) as [tracks|] eqn:Hb.
  - destruct (decide (tracks = [])) as [->|Hne].
    + exists self, [Print (NoSongsAvailable emotion)].
      split_and!; try done.
      unfold play_song_for_emotion. unfold_M. by rewrite Hb.
    + destruct (play_song_with_tracks self emotion fr tracks Hb Hne)
        as (song & Hin & ->).
      destruct (load_error fr), (play_error fr);
        eexists _, _; split_and!; done.
  - exists self, [Print (NoSongsAvailable emotion)].
    split_and!; try done.
    unfold play_song_for_emotion. unfold_M. by rewrite Hb.
Qed.

(** The four ways through the stability check. *)

(** A smoothed emotion that is neither the committed nor the pending one
    becomes the pending one, timed from this frame. *)
Lemma gate_new_candidate (self : Player) (loc : Locals) (fr : Frame)
    (s : option string) :
  truthy s = true → s ≠ current_emotion self → pending_emotion loc ≠ s →
  stability_gate fr s loc self
  = (inr (set_pending s (Some (now fr)) loc), self, []).
Proof.
  intros Ht Hc Hp. unfold stability_gate. unfold_M.
  apply py_eq_false in Hc, Hp. by rewrite Ht, Hc, Hp.
Qed.

(** The pending emotion seen again before the threshold: nothing happens. *)
Lemma gate_waiting (self : Player) (loc : Locals) (fr : Frame)
    (s : option string) (t0 : Q) :
  truthy s = true → s ≠ current_emotion self →
  pending_emotion loc = s → pending_emotion_time loc = Some t0 →
  (now fr - t0 < emotion_stability_threshold self)%Q →
  stability_gate fr s loc self = (inr loc, self, []).
Proof.
  intros Ht Hc Hp Htime Hlt. unfold stability_gate, elapsed_since. unfold_M.
  apply py_eq_false in Hc. apply py_eq_true in Hp.
  rewrite Ht, Hc, Hp, Htime. simpl.
  destruct (Qle_bool _ _) eqn:E; [|done].
  apply Qle_bool_iff in E. lra.
Qed.

(** The pending emotion seen again at or after the threshold: it is
    committed, a song is requested for it, and nothing is pending. *)
Lemma gate_commit (self : Player) (loc : Locals) (fr : Frame)
    (s : option string) (t0 : Q) :
  truthy s = true → s ≠ current_emotion self →
  pending_emotion loc = s → pending_emotion_time loc = Some t0 →
  (emotion_stability_threshold self <= now fr - t0)%Q →
  ∃ self' log,
    play_song_for_emotion s fr (set_current_emotion s self)
    = (inr tt, self', log)
    ∧ stability_gate fr s loc self
      = (inr (set_pending None (Some t0) loc), self', log)
    ∧ current_emotion self' = s
    ∧ polls log = 0.
Proof.
  intros Ht Hc Hp Htime Hle.
  destruct (play_song_frame (set_current_emotion s self) s fr)
    as (self' & log & Hplay & Hcur & _ & _ & _ & _ & _ & Hpolls).
  exists self', log. split_and!; try done.
  unfold stability_gate, elapsed_since. unfold_M.
  apply py_eq_false in Hc. apply py_eq_true in Hp.
  rewrite Ht, Hc, Hp, Htime. simpl.
  apply Qle_bool_iff in Hle. rewrite Hle, Hplay. simpl.
  by rewrite app_nil_r.
Qed.

(** The smoothed emotion equal to the committed one: nothing is pending any
    more, the mixer is polled once, and a song is requested for the committed
    emotion when the mixer is idle and there is a committed emotion. *)
Lemma gate_same (self : Player) (loc : Locals) (fr : Frame) :
  ∃ self' log,
    stability_gate fr (current_emotion self) loc self
    = (inr (set_pending None (pending_emotion_time loc) loc), self',
       MusicGetBusy :: log)
    ∧ polls log = 0
    ∧ current_emotion self' = current_emotion self
    ∧ (busy fr = false → truthy (current_emotion self) = true →
       play_song_for_emotion (current_emotion self) fr self
       = (inr tt, self', log))
    ∧ (busy fr = true ∨ truthy (current_emotion self) = false →
       self' = self ∧ log = []).
Proof.
  assert (py_eq (current_emotion self) (current_emotion self) = true) as He
    by by apply py_eq_true.
  unfold stability_gate, music_get_busy. unfold_M.
  rewrite He, andb_false_r. simpl.
  destruct (busy fr) eqn:Hb; simpl.
  - exists self, []. split_and!; try done; try by intros.
  - destruct (truthy (current_emotion self)) eqn:Ht.
    + destruct (play_song_frame self (current_emotion self) fr)
        as (self' & log & Hplay & Hcur & _ & _ & _ & _ & _ & Hpolls).
      exists self', log. rewrite Hplay. simpl. rewrite app_nil_r.
      split_and!; try done; try (intros [?|?]; done).
    + exists self, []. split_and!; try done; try by intros.
Qed.

(** Any other smoothed emotion ([None], or a false value) leaves everything
    as it is. *)
Lemma gate_nothing (self : Player) (loc : Locals) (fr : Frame)
    (s : option string) :
  truthy s = false → s ≠ current_emotion self →
  stability_gate fr s loc self = (inr loc, self, []).
Proof.
  intros Ht Hc. unfold stability_gate. unfold_M.
  apply py_eq_false in Hc. by rewrite Ht, Hc.
Qed.





(** ** One iteration of the main loop *)

Lemma dominant_with_confidence (self : Player)
    (emotions : list (string * Q)) :
  ∃ category confidence,
    get_dominant_emotion_category self emotions true
    = inr (WithConfidence category confidence).
Proof.
  destruct emotions as [|e0 emotions]; simpl; [eauto|].
  destruct (max_from Qltb snd e0 emotions) as [label confidence].
  destruct (Qltb confidence (confidence_threshold self)); eauto.
Qed.

Lemma smoothed_total (self : Player) :
  ∃ smoothed, get_smoothed_emotion self = inr smoothed.
Proof.
  unfold get_smoothed_emotion.
  destruct (Nat.ltb _ _); [eauto|].
  destruct (count_emotions _ _); simpl; eauto.
Qed.

(** An analysed frame either leaves the player and the locals alone (the
    classifier raised, saw no face, or was not confident enough), or appends
    one category to the history and runs the stability check on the smoothed
    emotion. *)
Lemma analyze_cases (fr : Frame) (loc : Locals) (self : Player) :
  (∃ log, analyze fr loc self = (inr loc, self, log) ∧ polls log = 0)
  ∨ (∃ category confidence smoothed,
       category ≠ ""
       ∧ get_smoothed_emotion (history_append category self) = inr smoothed
       ∧ analyze fr loc self
         = stability_gate fr smoothed
             (set_last_detected (Some category) confidence loc)
             (history_append category self)).
Proof.
  unfold analyze. unfold_M.
  destruct (detection fr) as [e|[|f faces]]; simpl.
  - left. by eexists.
  - left. by eexists.
  - set (f' := max_from Z.ltb area f faces).
    destruct (dominant_with_confidence self (emotions f'))
      as (category & confidence & ->).
    destruct category as [category|]; [|left; by eexists].
    simpl. destruct (String.eqb_spec category "") as [->|Hne]; simpl.
    { left. by eexists. }
    right. exists category, confidence.
    destruct (smoothed_total (history_append category self))
      as (smoothed & Hs).
    exists smoothed. rewrite Hs. split_and!; try done.
    unfold ret. simpl.
    by destruct (stability_gate _ _ _ _) as [[[?|?] ?] ?].
Qed.

Lemma polls_app (a b : list event) : polls (a ++ b) = polls a + polls b.
Proof. unfold polls. by rewrite List.filter_app, length_app. Qed.

Lemma truthy_Some (s : option string) : truthy s = true → s ≠ None.
Proof. by destruct s. Qed.

(** The stability check keeps the invariant, raises nothing, and polls the
    mixer at most once. *)
Lemma gate_preserves (fr : Frame) (s : option string) (loc : Locals)
    (self : Player) :
  gate_invariant self loc →
  ∃ loc' self' log,
    stability_gate fr s loc self = (inr loc', self', log)
    ∧ gate_invariant self' loc'
    ∧ polls log ≤ 1
    ∧ detection_frequency self' = detection_frequency self
    ∧ frame_count loc' = frame_count loc.
Proof.
  intros [Hdiff Htime].
  destruct (decide (s = current_emotion self)) as [->|Hc].
  { destruct (gate_same self loc fr)
      as (self' & log & -> & Hp & Hcur & Hplay & Hidle).
    assert (detection_frequency self' = detection_frequency self) as Hf.
    { destruct (busy fr) eqn:Hb.
      - by destruct (Hidle (or_introl eq_refl)) as [-> _].
      - destruct (truthy (current_emotion self)) eqn:Ht.
        + specialize (Hplay eq_refl eq_refl).
          destruct (play_song_frame self (current_emotion self) fr)
            as (self2 & log2 & Heq & _ & _ & _ & _ & _ & Hf & _).
          rewrite Hplay in Heq. by injection Heq as <- <-.
        + by destruct (Hidle (or_intror eq_refl)) as [-> _]. }
    eexists _, _, _. split; [reflexivity|].
    split; [by split|]. split; [|by split].
    change (polls (MusicGetBusy :: log)) with (S (polls log)). lia. }
  destruct (truthy s) eqn:Ht.
  2:{ rewrite gate_nothing by done. eexists _, _, _.
      split; [reflexivity|]. split; [by split|]. split; [|by split].
      unfold polls. simpl. lia. }
  destruct (decide (pending_emotion loc = s)) as [Hp|Hp].
  2:{ rewrite gate_new_candidate by done. eexists _, _, _.
      split; [reflexivity|]. split; [|split; [unfold polls; simpl; lia|by split]].
      split; simpl; [|done]. by intros p ->. }
  destruct (pending_emotion_time loc) as [t0|] eqn:Et.
  2:{ exfalso. apply Htime; [|done]. rewrite Hp. by apply truthy_Some. }
  destruct (Qlt_le_dec (now fr - t0) (emotion_stability_threshold self))
    as [Hlt|Hle].
  - rewrite (gate_waiting self loc fr s t0) by done.
    eexists _, _, _. split; [reflexivity|].
    split; [|split; [unfold polls; simpl; lia|by split]].
    split; [done|]. by rewrite Et.
  - destruct (gate_commit self loc fr s t0)
      as (self' & log & Hplay & -> & Hcur & Hpolls); try done.
    assert (detection_frequency self' = detection_frequency self) as Hf.
    { destruct (play_song_frame (set_current_emotion s self) s fr)
        as (self2 & log2 & Heq & _ & _ & _ & _ & _ & Hf & _).
      rewrite Hplay in Heq. by injection Heq as <- <-. }
    eexists _, _, _. split; [reflexivity|].
    split; [by split|]. split; [lia|by split].
Qed.

(** Every iteration of the main loop keeps the invariant and returns, from
    any state that satisfies it (and has a non-zero detection frequency);
    it polls the mixer at most once. *)
Lemma loop_body_preserves (fr : Frame) (loc : Locals) (self : Player) :
  gate_invariant self loc → detection_frequency self ≠ 0 →
  ∃ continue loc' self' log,
    loop_body fr loc self = (inr (continue, loc'), self', log)
    ∧ gate_invariant self' loc'
    ∧ detection_frequency self' = detection_frequency self
    ∧ polls log ≤ 1.
Proof.
  intros Hinv Hfreq. unfold loop_body.
  destruct (read_ok fr); simpl.
  2:{ unfold_M. eexists _, _, _, _. split; [reflexivity|].
      split; [done|]. split; [done|]. unfold polls. simpl. lia. }
  assert (∃ loc1 self1 log1,
            (if Nat.eqb (frame_count loc mod detection_frequency self) 0
             then analyze fr loc else ret loc) self
            = (inr loc1, self1, log1)
            ∧ gate_invariant self1 loc1
            ∧ detection_frequency self1 = detection_frequency self
            ∧ polls log1 ≤ 1)
    as (loc1 & self1 & log1 & Hstep & Hinv1 & Hf1 & Hp1).
  { destruct (Nat.eqb _ _).
    - destruct (analyze_cases fr loc self)
        as [(log & -> & Hp)|(c & conf & sm & Hc & Hs & ->)].
      + eexists _, _, _. split; [reflexivity|].
        split; [done|]. split; [done|]. lia.
      + destruct (gate_preserves fr sm
                    (set_last_detected (Some c) conf loc)
                    (history_append c self))
          as (loc' & self' & log & -> & Hinv' & Hp & Hf & _); [done|].
        eexists _, _, _. split; [reflexivity|]. by split.
    - eexists _, _, _. split; [reflexivity|].
      split; [done|]. split; [done|]. unfold polls. simpl. lia. }
  unfold_M. destruct (detection_frequency self) as [|n] eqn:En; [done|].
  rewrite Hstep.
  destruct (key_q fr); simpl; eexists _, _, _, _;
    (split; [reflexivity|]); (split; [exact Hinv1|]); (split; [done|]);
    rewrite polls_app; unfold polls at 2; simpl; lia.
Qed.

Lemma run_loop_preserves (frames : list Frame) (loc : Locals)
    (self : Player) :
  gate_invariant self loc → detection_frequency self ≠ 0 →
  ∃ continue loc' self' log,
    run_loop frames loc self = (inr (continue, loc'), self', log)
    ∧ gate_invariant self' loc'.
Proof.
  revert loc self. induction frames as [|fr frames IH]; intros loc self H Hf.
  - by eexists _, _, _, _.
  - destruct (loop_body_preserves fr loc self H Hf)
      as (continue & loc1 & self1 & log1 & Hbody & Hinv1 & Hf1 & _).
    cbn [run_loop]. unfold mbind, M_bind, bind. rewrite Hbody.
    destruct continue.
    + destruct (IH loc1 self1 Hinv1 ltac:(by rewrite Hf1))
        as (continue & loc2 & self2 & log2 & -> & Hinv2).
      by eexists _, _, _, _.
    + simpl. by eexists _, _, _, _.
Qed.

(** When the pending emotion is seen again but no time was recorded for it,
    the subtraction raises. The invariant rules this state out. *)
Lemma gate_raises (self : Player) (loc : Locals) (fr : Frame)
    (s : option string) :
  truthy s = true → s ≠ current_emotion self →
  pending_emotion loc = s → pending_emotion_time loc = None →
  stability_gate fr s loc self
  = (inl (TypeError "unsupported operand type(s) for -"), self, []).
Proof.
  intros Ht Hc Hp Htime. unfold stability_gate, elapsed_since. unfold_M.
  apply py_eq_false in Hc. apply py_eq_true in Hp.
  by rewrite Ht, Hc, Hp, Htime.
Qed.

(** What a returning stability check did to the pending candidate. *)
Lemma gate_pending (fr : Frame) (s : option string) (loc : Locals)
    (self : Player) (loc' : Locals) (self' : Player) (log : list event) :
  stability_gate fr s loc self = (inr loc', self', log) →
  (current_emotion self' ≠ current_emotion self →
   pending_emotion loc' = None)
  ∧ (s = current_emotion self → pending_emotion loc' = None)
  ∧ (truthy s = true → s ≠ current_emotion self →
     pending_emotion loc ≠ s →
     pending_emotion loc' = s
     ∧ pending_emotion_time loc' = Some (now fr)
     ∧ current_emotion self' = current_emotion self).
Proof.
  intros Hgate.
  destruct (decide (s = current_emotion self)) as [->|Hc].
  { destruct (gate_same self loc fr) as (self2 & log2 & Heq & _ & Hcur & _).
    rewrite Heq in Hgate. injection Hgate as <- <- <-.
    split_and!; try done. }
  destruct (truthy s) eqn:Ht.
  2:{ rewrite gate_nothing in Hgate by done. injection Hgate as <- <- <-.
      split_and!; done. }
  destruct (decide (pending_emotion loc = s)) as [Hp|Hp].
  2:{ rewrite gate_new_candidate in Hgate by done.
      injection Hgate as <- <- <-. split_and!; done. }
  destruct (pending_emotion_time loc) as [t0|] eqn:Et.
  2:{ by rewrite gate_raises in Hgate. }
  destruct (Qlt_le_dec (now fr - t0) (emotion_stability_threshold self))
    as [Hlt|Hle].
  - rewrite (gate_waiting self loc fr s t0) in Hgate by done.
    injection Hgate as <- <- <-. split_and!; done.
  - destruct (gate_commit self loc fr s t0)
      as (self2 & log2 & _ & Heq & _ & _); try done.
    rewrite Heq in Hgate. injection Hgate as <- <- <-.
    split_and!; done.
Qed.

(** The stability check polls the mixer only when the smoothed emotion is
    the committed one. *)
Lemma gate_no_poll (fr : Frame) (s : option string) (loc : Locals)
    (self : Player) :
  s ≠ current_emotion self → polls (stability_gate fr s loc self).2 = 0.
Proof.
  intros Hc.
  destruct (truthy s) eqn:Ht; [|by rewrite gate_nothing].
  destruct (decide (pending_emotion loc = s)) as [Hp|Hp];
    [|by rewrite gate_new_candidate].
  destruct (pending_emotion_time loc) as [t0|] eqn:Et;
    [|by rewrite gate_raises].
  destruct (Qlt_le_dec (now fr - t0) (emotion_stability_threshold self))
    as [Hlt|Hle].
  - by rewrite (gate_waiting self loc fr s t0).
  - destruct (gate_commit self loc fr s t0)
      as (self2 & log2 & _ & -> & _ & Hpolls); done.
Qed.

Lemma loop_body_polls (fr : Frame) (loc : Locals) (self : Player) :
  polls (loop_body fr loc self).2 ≤ 1.
Proof.
  unfold loop_body. destruct (read_ok fr); simpl; [|unfold polls; simpl; lia].
  unfold_M. destruct (detection_frequency self) as [|n];
    [unfold polls; simpl; lia|].
  assert (polls ((if Nat.eqb (frame_count loc mod S n) 0
                  then analyze fr loc else ret loc) self).2 ≤ 1) as H.
  { destruct (Nat.eqb _ _); [|unfold polls; simpl; lia].
    destruct (analyze_cases fr loc self)
      as [(log & -> & Hp)|(c & conf & sm & Hc & Hs & ->)]; [simpl; lia|].
    destruct (decide (sm = current_emotion (history_append c self)))
      as [->|Hne].
    - destruct (gate_same (history_append c self)
                  (set_last_detected (Some c) conf loc) fr)
        as (self2 & log2 & -> & Hp & _).
      simpl. change (polls (MusicGetBusy :: log2)) with (S (polls log2)).
      lia.
    - rewrite gate_no_poll by done. lia. }
  unfold ret in *.
  destruct ((if Nat.eqb (frame_count loc mod S n) 0
             then analyze fr loc else λ self, (inr loc, self, [])) self)
    as [[[e|loc1] self1] log1]; [done|].
  simpl in H. destruct (key_q fr); simpl; rewrite polls_app;
    unfold polls at 2; simpl; lia.
Qed.

(** A frame that is not due for analysis only advances the frame counter
    (or, on the quit key, ends the loop). *)
Lemma loop_body_skip (fr : Frame) (loc : Locals) (self : Player) :
  read_ok fr = true → detection_frequency self ≠ 0 →
  frame_count loc mod detection_frequency self ≠ 0 →
  loop_body fr loc self
  = if key_q fr then (inr (false, loc), self, [Print Stopping])
    else (inr (true, set_frame_count (frame_count loc + 1) loc), self, []).
Proof.
  intros Hr Hf Hm. unfold loop_body. rewrite Hr. simpl. unfold_M.
  destruct (detection_frequency self) as [|n]; [done|].
  apply Nat.eqb_neq in Hm. rewrite Hm. by destruct (key_q fr).
Qed.

Lemma grouping_table_mood (label : string) : grouping_table label ∈ moods.
Proof.
  unfold grouping_table, moods. repeat case_decide;
    rewrite !elem_of_cons; auto.
Qed.

(** The shape of what the normalizer returns. *)
Lemma dominant_shape (self : Player) (emotions : list (string * Q)) :
  (∃ category confidence,
     get_dominant_emotion_category self emotions true
     = inr (WithConfidence category confidence)
     ∧ get_dominant_emotion_category self emotions false
       = inr (Bare category)
     ∧ ((∀ l s, (l, s) ∈ emotions → (s < confidence_threshold self)%Q) →
        category = None))
  ∧ ∀ c confidence,
      get_dominant_emotion_category self emotions true
      = inr (WithConfidence (Some c) confidence) →
      c ∈ moods
      ∧ (confidence_threshold self <= confidence)%Q
      ∧ ∃ label, (label, confidence) ∈ emotions.
Proof.
  destruct emotions as [|e0 emotions].
  { split; [by eexists _, _|]. intros c confidence H. discriminate. }
  destruct (dominant_is_max e0 emotions) as (Hin & _ & _).
  cbn [get_dominant_emotion_category py_max].
  destruct (max_from Qltb snd e0 emotions) as [label confidence].
  destruct (Qltb confidence (confidence_threshold self)) eqn:E.
  - split; [by eexists _, _|]. intros c conf H. discriminate.
  - split.
    + eexists _, _. split_and!; try done. intros Hlow.
      apply Qltb_false in E. specialize (Hlow _ _ Hin). lra.
    + intros c conf H. rewrite map_category_table in H.
      assert (c = grouping_table label) as -> by congruence.
      assert (conf = confidence) as -> by congruence.
      split_and!; [apply grouping_table_mood|by apply Qltb_false|].
      by exists label.
Qed.

(** What an analysed frame does, by what the classifier answered. *)
Lemma analyze_no_data (fr : Frame) (loc : Locals) (self : Player) :
  (∀ e, detection fr = inl e →
        analyze fr loc self = (inr loc, self, [Print (DetectionError e)]))
  ∧ (detection fr = inr [] → analyze fr loc self = (inr loc, self, []))
  ∧ (∀ f faces confidence,
       detection fr = inr (f :: faces) →
       get_dominant_emotion_category self
         (emotions (max_from Z.ltb area f faces)) true
       = inr (WithConfidence None confidence) →
       analyze fr loc self = (inr loc, self, [])).
Proof.
  split_and!.
  - intros e He. unfold analyze. unfold_M. by rewrite He.
  - intros He. unfold analyze. unfold_M. by rewrite He.
  - intros f faces confidence He Hd. unfold analyze. unfold_M.
    rewrite He. simpl. by rewrite Hd.
Qed.

Lemma analyze_data (fr : Frame) (loc : Locals) (self : Player) (f : face)
    (faces : list face) (category : string) (confidence : Q) :
  detection fr = inr (f :: faces) →
  get_dominant_emotion_category self
    (emotions (max_from Z.ltb area f faces)) true
  = inr (WithConfidence (Some category) confidence) →
  ∃ smoothed,
    get_smoothed_emotion (history_append category self) = inr smoothed
    ∧ analyze fr loc self
      = stability_gate fr smoothed
          (set_last_detected (Some category) confidence loc)
          (history_append category self).
Proof.
  intros He Hd.
  assert (category ≠ "") as Hne.
  { destruct (dominant_shape self
                (emotions (max_from Z.ltb area f faces))) as [_ H].
    destruct (H _ _ Hd) as (Hm & _). intros ->.
    unfold moods in Hm. rewrite !elem_of_cons in Hm.
    destruct Hm as [?|[?|[?|Hm]]]; try discriminate.
    by apply elem_of_nil in Hm. }
  destruct (smoothed_total (history_append category self)) as (smoothed & Hs).
  exists smoothed. split; [done|].
  unfold analyze. unfold_M. rewrite He. simpl. rewrite Hd. simpl.
  apply String.eqb_neq in Hne. rewrite Hne. simpl. rewrite Hs.
  unfold ret. simpl.
  by destruct (stability_gate _ _ _ _) as [[[?|?] ?] ?].
Qed.

(** ** Replay of a finished song *)

(** C6, as stated, fails: with a committed emotion that has a song and an
    idle mixer, an iteration whose frame is not due for analysis (here the
    second frame, [frame_count = 1]) neither polls the mixer nor requests a
    song. *)
Lemma no_replay_on_skipped_frame :
  let self := set_current_emotion (Some "happy")
                (init (<["happy" := ["a.mp3"]]> ∅)) in
  let loc := set_frame_count 1 initial_locals in
  busy (quiet_frame 0) = false
  ∧ truthy (current_emotion self) = true
  ∧ loop_body (quiet_frame 0) loc self
    = (inr (true, set_frame_count 2 loc), self, []).
Proof. split_and!; reflexivity. Qed.

Lemma loop_body_due (fr : Frame) (loc : Locals) (self : Player) :
  read_ok fr = true → detection_frequency self ≠ 0 →
  frame_count loc mod detection_frequency self = 0 →
  loop_body fr loc self
  = match analyze fr loc self with
    | (inl e, self1, log1) => (inl e, self1, log1)
    | (inr loc1, self1, log1) => after_analysis fr loc1 self1 log1
    end.
Proof.
  intros Hr Hf Hm. unfold loop_body, after_analysis. rewrite Hr. simpl.
  unfold_M. destruct (detection_frequency self) as [|n]; [done|].
  apply Nat.eqb_eq in Hm. rewrite Hm.
  destruct (analyze fr loc self) as [[[e|loc1] self1] log1]; [done|].
  destruct (key_q fr); simpl; by rewrite ?app_nil_r.
Qed.

(** The stability check on a smoothed emotion that is not the committed
    one: either it touches neither the player nor the mixer, or it commits
    the pending emotion and requests a song for it. *)
Lemma gate_differs (fr : Frame) (s : option string) (loc : Locals)
    (self : Player) :
  s ≠ current_emotion self →
  (∃ r, stability_gate fr s loc self = (r, self, []))
  ∨ (pending_emotion loc = s
     ∧ ∃ loc' self' log,
         stability_gate fr s loc self = (inr loc', self', log)
         ∧ play_song_for_emotion s fr (set_current_emotion s self)
           = (inr tt, self', log)
         ∧ polls log = 0).
Proof.
  intros Hc.
  destruct (truthy s) eqn:Ht; [|left; eexists; by apply gate_nothing].
  destruct (decide (pending_emotion loc = s)) as [Hp|Hp];
    [|left; eexists; by apply gate_new_candidate].
  destruct (pending_emotion_time loc) as [t0|] eqn:Et;
    [|left; eexists; by apply gate_raises].
  destruct (Qlt_le_dec (now fr - t0) (emotion_stability_threshold self))
    as [Hlt|Hle].
  - left. eexists. by apply (gate_waiting self loc fr s t0).
  - right. split; [done|].
    destruct (gate_commit self loc fr s t0)
      as (self2 & log2 & Hplay & Hgate & _ & Hpolls); try done.
    by exists (set_pending None (Some t0) loc), self2, log2.
Qed.

Lemma polls_after_analysis (fr : Frame) (loc : Locals) (self : Player)
    (log : list event) :
  polls (after_analysis fr loc self log).2 = polls log.
Proof.
  unfold after_analysis. destruct (key_q fr); simpl; [|done].
  rewrite polls_app. unfold polls at 2. simpl. lia.
Qed.

(** C6, amended: what an iteration of the main loop does about the replay
    of a finished song, by the kind of frame.
    - A frame the camera failed to read, or one that is not due for
      analysis: the mixer is not polled and nothing is requested of it; the
      player is as before.
    - A frame due for analysis that yields no confident category (the
      classifier raised, saw no face, or every score of the largest face is
      below the threshold): the same.
    - A frame due for analysis that yields a confident category, with the
      smoothed emotion of the extended history equal to the committed one:
      the mixer is polled exactly once and, when it is idle and there is a
      committed emotion, a song is requested for the committed emotion;
      otherwise nothing else happens.
    - The same with a smoothed emotion other than the committed one: the
      mixer is not polled, and either nothing is requested of it and the
      player only has its history extended, or the pending emotion is
      committed and the song requested is for that newly committed
      emotion, not a replay.
    No iteration polls the mixer more than once. *)
Theorem replay_when_idle (fr : Frame) (loc : Locals) (self : Player) :
  (read_ok fr = false →
   loop_body fr loc self
   = (inr (false, loc), self, [Print CouldNotReadFrame]))
  ∧ (read_ok fr = true → detection_frequency self ≠ 0 →
     frame_count loc mod detection_frequency self ≠ 0 →
     loop_body fr loc self = after_analysis fr loc self [])
  ∧ (read_ok fr = true → detection_frequency self ≠ 0 →
     frame_count loc mod detection_frequency self = 0 →
     (∀ e, detection fr = inl e →
           loop_body fr loc self
           = after_analysis fr loc self [Print (DetectionError e)])
     ∧ (detection fr = inr [] →
        loop_body fr loc self = after_analysis fr loc self [])
     ∧ (∀ f faces confidence,
          detection fr = inr (f :: faces) →
          get_dominant_emotion_category self
            (emotions (max_from Z.ltb area f faces)) true
          = inr (WithConfidence None confidence) →
          loop_body fr loc self = after_analysis fr loc self [])
     ∧ (∀ f faces category confidence smoothed,
          detection fr = inr (f :: faces) →
          get_dominant_emotion_category self
            (emotions (max_from Z.ltb area f faces)) true
          = inr (WithConfidence (Some category) confidence) →
          get_smoothed_emotion (history_append category self)
          = inr smoothed →
          let self1 := history_append category self in
          let loc1 := set_last_detected (Some category) confidence loc in
          (smoothed = current_emotion self →
           ∃ self' log,
             loop_body fr loc self
             = after_analysis fr
                 (set_pending None (pending_emotion_time loc) loc1) self'
                 (MusicGetBusy :: log)
             ∧ polls log = 0
             ∧ (busy fr = false → truthy (current_emotion self) = true →
                play_song_for_emotion (current_emotion self) fr self1
                = (inr tt, self', log))
             ∧ (busy fr = true ∨ truthy (current_emotion self) = false →
                self' = self1 ∧ log = []))
          ∧ (smoothed ≠ current_emotion self →
             polls (loop_body fr loc self).2 = 0
             ∧ ((∃ e, loop_body fr loc self = (inl e, self1, []))
                ∨ (∃ loc', loop_body fr loc self
                           = after_analysis fr loc' self1 [])
                ∨ (pending_emotion loc = smoothed
                   ∧ ∃ loc' self' log,
                       loop_body fr loc self
                       = after_analysis fr loc' self' log
                       ∧ play_song_for_emotion smoothed fr
                           (set_current_emotion smoothed self1)
                         = (inr tt, self', log))))))
  ∧ polls (loop_body fr loc self).2 ≤ 1.
Proof.
  split; [|split; [|split]].
  - intros Hr. unfold loop_body. by rewrite Hr.
  - intros Hr Hf Hm. rewrite loop_body_skip by done.
    unfold after_analysis. by destruct (key_q fr).
  - intros Hr Hf Hm. rewrite (loop_body_due fr loc self Hr Hf Hm).
    destruct (analyze_no_data fr loc self) as (H1 & H2 & H3).
    split; [|split; [|split]].
    + intros e He. by rewrite (H1 e He).
    + intros He. by rewrite (H2 He).
    + intros f faces confidence He Hd. by rewrite (H3 f faces confidence).
    + intros f faces category confidence smoothed He Hd Hs self1 loc1.
      destruct (analyze_data fr loc self f faces category confidence He Hd)
        as (smoothed' & Hs' & ->).
      fold self1 in Hs, Hs'. assert (smoothed' = smoothed) as -> by congruence.
      fold self1 loc1.
      assert (current_emotion self1 = current_emotion self) as Hcur by done.
      split.
      * intros ->. rewrite <- Hcur.
        destruct (gate_same self1 loc1 fr)
          as (self' & log & -> & Hp & _ & Hplay & Hidle).
        by exists self', log.
      * intros Hne. rewrite <- Hcur in Hne.
        destruct (gate_differs fr smoothed loc1 self1 Hne)
          as [[r ->]|(Hp & loc' & self' & log & -> & Hplay & Hpolls)].
        -- destruct r as [e|loc'].
           ++ split; [done|]. left. by exists e.
           ++ rewrite polls_after_analysis. split; [done|].
              right. left. by exists loc'.
        -- rewrite polls_after_analysis. split; [done|].
           right. right. split; [done|]. by exists loc', self', log.
  - apply loop_body_polls.
Qed.

Lemma replay_when_idle_witness :
  let catalog : gmap string (list string) := <["happy" := ["a.mp3"]]> ∅ in
  let self := set_emotion_history ["happy"; "happy"]
                (set_current_emotion (Some "happy") (init catalog)) in
  let idle := set_detection (detection (face_frame "happy" 0))
                (quiet_frame 0) in
  (∃ loc' self' log,
     loop_body idle initial_locals self
     = after_analysis idle loc' self' (MusicGetBusy :: log)
     ∧ play_song_for_emotion (Some "happy") idle
         (history_append "happy" self)
       = (inr tt, self', log))
  ∧ polls (loop_body (face_frame "sad" 0) initial_locals
             (set_emotion_history ["sad"; "sad"] self)).2 = 0
  ∧ loop_body (quiet_frame 0) initial_locals self
    = after_analysis (quiet_frame 0) initial_locals self []
  ∧ loop_body idle (set_frame_count 1 initial_locals) self
    = after_analysis idle (set_frame_count 1 initial_locals) self [].
Proof.
  intros catalog self idle.
  destruct (replay_when_idle idle initial_locals self)
    as (_ & _ & Hdue & _).
  destruct (Hdue eq_refl) as (_ & _ & _ & Hdata);
    [discriminate|reflexivity|].
  destruct (Hdata _ _ "happy" (9 # 10)%Q (Some "happy")
              eq_refl eq_refl eq_refl) as [Hsame _].
  destruct (Hsame eq_refl) as (self' & log & Hbody & _ & Hplay & _).
  destruct (replay_when_idle (face_frame "sad" 0) initial_locals
              (set_emotion_history ["sad"; "sad"] self))
    as (_ & _ & Hdue' & _).
  destruct (Hdue' eq_refl) as (_ & _ & _ & Hdata');
    [discriminate|reflexivity|].
  destruct (Hdata' _ _ "sad" (9 # 10)%Q (Some "sad")
              eq_refl eq_refl eq_refl) as [_ Hdiff].
  destruct Hdiff as [Hpolls _]; [discriminate|].
  destruct (replay_when_idle (quiet_frame 0) initial_locals self)
    as (_ & _ & Hdue'' & _).
  destruct (Hdue'' eq_refl) as (_ & Hnoface & _);
    [discriminate|reflexivity|].
  destruct (replay_when_idle idle (set_frame_count 1 initial_locals) self)
    as (_ & Hskip & _).
  split; [|split; [|split]].
  - eexists _, self', log. split; [exact Hbody|].
    apply Hplay; reflexivity.
  - exact Hpolls.
  - apply Hnoface. reflexivity.
  - apply Hskip; [reflexivity|discriminate|discriminate].
Defined.

(** ** The pending candidate *)

(** C9, as stated, fails in its second half: the committed emotion is
    neutral and happy is pending when the smoothed emotion of the next
    analysed frame is sad. The candidate has changed, yet the pending state
    is not emptied: it now holds sad, timed from this frame. *)
Lemma pending_replaced_not_emptied :
  let self :=
    set_emotion_history ["happy"; "happy"; "happy"; "sad"; "sad"; "sad"]
      (set_current_emotion (Some "neutral") (init ∅)) in
  let loc := set_pending (Some "happy") (Some 10%Q) initial_locals in
  let loc' :=
    set_frame_count 1
      (set_pending (Some "sad") (Some 11%Q)
         (set_last_detected (Some "sad") (9 # 10) loc)) in
  gate_invariant self loc
  ∧ loop_body (face_frame "sad" 11) loc self
    = (inr (true, loc'), history_append "sad" self, [])
  ∧ pending_emotion loc' ≠ None.
Proof.
  split_and!.
  - split; simpl; [intros p [= <-]; discriminate|discriminate].
  - reflexivity.
  - discriminate.
Qed.

(** C9, amended: between iterations of the main loop a pending emotion is
    never the committed one (and has a time recorded); this holds at the
    start and is kept by every iteration, each of which returns, so it holds
    all along every run. A stability check that commits, or whose smoothed
    emotion is the committed one, leaves nothing pending; one whose smoothed
    emotion is a new candidate replaces the pending state by that candidate,
    timed from the current frame, and commits nothing. *)
Theorem pending_differs_from_committed (fr : Frame) (loc : Locals)
    (self : Player) :
  (∀ catalog frames,
     gate_invariant (init catalog) initial_locals
     ∧ ∃ continue loc' self' log,
         run_loop frames initial_locals (init catalog)
         = (inr (continue, loc'), self', log)
         ∧ gate_invariant self' loc')
  ∧ (gate_invariant self loc → detection_frequency self ≠ 0 →
     ∃ continue loc' self' log,
       loop_body fr loc self = (inr (continue, loc'), self', log)
       ∧ gate_invariant self' loc')
  ∧ (∀ s loc' self' log,
       stability_gate fr s loc self = (inr loc', self', log) →
       (current_emotion self' ≠ current_emotion self →
        pending_emotion loc' = None)
       ∧ (s = current_emotion self → pending_emotion loc' = None)
       ∧ (truthy s = true → s ≠ current_emotion self →
          pending_emotion loc ≠ s →
          pending_emotion loc' = s
          ∧ pending_emotion_time loc' = Some (now fr)
          ∧ current_emotion self' = current_emotion self)).
Proof.
  assert (∀ catalog, gate_invariant (init catalog) initial_locals) as Hinit.
  { intros catalog. split; simpl; done. }
  split_and!.
  - intros catalog frames. split; [apply Hinit|].
    apply run_loop_preserves; [apply Hinit|done].
  - intros Hinv Hf.
    destruct (loop_body_preserves fr loc self Hinv Hf)
      as (continue & loc' & self' & log & H1 & H2 & _).
    by exists continue, loc', self', log.
  - intros s loc' self' log. apply gate_pending.
Qed.

Lemma pending_differs_from_committed_witness :
  let self :=
    set_emotion_history ["happy"; "happy"; "happy"; "sad"; "sad"; "sad"]
      (set_current_emotion (Some "neutral") (init ∅)) in
  let loc := set_pending (Some "happy") (Some 10%Q) initial_locals in
  (∃ continue loc' self' log,
     loop_body (face_frame "sad" 11) loc self
     = (inr (continue, loc'), self', log)
     ∧ gate_invariant self' loc')
  ∧ ∀ loc' self' log,
      stability_gate (face_frame "sad" 11) (Some "sad") loc self
      = (inr loc', self', log) →
      pending_emotion loc' = Some "sad"
      ∧ pending_emotion_time loc' = Some 11%Q
      ∧ current_emotion self' = Some "neutral".
Proof.
  intros self loc.
  destruct (pending_differs_from_committed (face_frame "sad" 11) loc self)
    as (_ & Hstep & Hgate).
  split.
  - apply Hstep; [|discriminate].
    split; simpl; [intros p [= <-]; discriminate|discriminate].
  - intros loc' self' log H.
    destruct (Hgate _ _ _ _ H) as (_ & _ & Hnew).
    apply Hnew; [reflexivity|discriminate|discriminate].
Defined.

(** ** Two runs from the initial state *)

(** Five analysed frames showing a happy face, at seconds 0, 1, 2, 4 and 5:
    happy becomes the smoothed emotion on the third, is pending since then
    (second 2), and is committed on the fifth, three seconds later, when the
    one happy song is started. *)
Example run_commits_after_dwell :
  let catalog : gmap string (list string) :=
    <["happy" := ["a.mp3"]]> (<["sad" := ["b.mp3"]]> (<["neutral" := []]> ∅)) in
  let four := [("happy", 0); ("happy", 1); ("happy", 2); ("happy", 4)]%Q in
  let before := run_loop (camera four) initial_locals (init catalog) in
  let after :=
    run_loop (camera (four ++ [("happy", 5%Q)])) initial_locals
      (init catalog) in
  (pending_emotion <$> final_locals before) = Some (Some "happy")
  ∧ (pending_emotion_time <$> final_locals before) = Some (Some 2%Q)
  ∧ current_emotion before.1.2 = None
  ∧ (pending_emotion <$> final_locals after) = Some None
  ∧ current_emotion after.1.2 = Some "happy"
  ∧ current_song after.1.2 = Some "a.mp3".
Proof. vm_compute. split_and!; reflexivity. Qed.

(** The state of the C9 counterexample arises in a run: neutral is committed
    after six neutral frames, six happy frames make happy the pending
    candidate, and the sixth of the sad frames that follow within the
    threshold turns the smoothed emotion to sad, which replaces happy as the
    pending candidate while neutral stays committed. *)
Example candidate_change_in_a_run :
  let shots :=
    [("neutral", 0); ("neutral", 1); ("neutral", 2); ("neutral", 3);
     ("neutral", 4); ("neutral", 5);
     ("happy", 60 # 10); ("happy", 61 # 10); ("happy", 62 # 10);
     ("happy", 63 # 10); ("happy", 64 # 10); ("happy", 65 # 10);
     ("sad", 66 # 10); ("sad", 67 # 10); ("sad", 68 # 10);
     ("sad", 69 # 10); ("sad", 70 # 10)]%Q in
  let before := run_loop (camera shots) initial_locals (init ∅) in
  let after :=
    run_loop (camera (shots ++ [("sad", 71 # 10)%Q])) initial_locals
      (init ∅) in
  (pending_emotion <$> final_locals before) = Some (Some "happy")
  ∧ current_emotion before.1.2 = Some "neutral"
  ∧ (pending_emotion <$> final_locals after) = Some (Some "sad")
  ∧ (pending_emotion_time <$> final_locals after) = Some (Some (71 # 10)%Q)
  ∧ current_emotion after.1.2 = Some "neutral".
Proof. vm_compute. split_and!; reflexivity. Qed.

(** * Further properties: the code around the decision core *)

(** ** [load_songs] *)

Lemma str_endswith_spec (s suffix : string) :
  str_endswith s suffix = true ↔ ∃ pre, s = String.append pre suffix.
Proof.
  induction s as [|a s IH]; cbn [str_endswith].
  - rewrite orb_false_r, String.eqb_eq. split.
    + intros <-. by exists "".
    + intros [[|b pre] H]; simpl in H; [done|discriminate].
  - rewrite orb_true_iff, String.eqb_eq, IH. split.
    + intros [<-|[pre ->]]; [by exists ""|by exists (String a pre)].
    + intros [[|b pre] H]; simpl in H; [by left|].
      injection H as -> ->. right. by exists pre.
Qed.

Lemma append_assoc (a b c : string) :
  String.append (String.append a b) c = String.append a (String.append b c).
Proof.
  induction a as [|x a IH]; [done|].
  change (String x (String.append (String.append a b) c)
          = String x (String.append a (String.append b c))).
  by rewrite IH.
Qed.

(** A joined path ends with whatever its last component ends with. *)
Lemma path_join_endswith (a b suffix : string) :
  str_endswith b suffix = true →
  str_endswith (path_join a b) suffix = true.
Proof.
  rewrite !str_endswith_spec. intros [pre ->]. unfold path_join.
  destruct (String.prefix _ _); [by exists pre|].
  destruct (_ || _).
  - exists (String.append a pre). by rewrite append_assoc.
  - exists (String.append a (String.append "/" pre)).
    by rewrite !append_assoc.
Qed.

Lemma scan_files_ok (folder_path emotion : string) (files : list string)
    (songs : gmap string (list string)) (tracks : list string) :
  songs !! emotion = Some tracks →
  scan_files folder_path emotion files songs
  = inr (<[emotion :=
            tracks ++ (path_join folder_path
                       <$> List.filter has_audio_extension files)]> songs).
Proof.
  revert songs tracks. induction files as [|file files IH];
    intros songs tracks Hl; simpl.
  - by rewrite app_nil_r, insert_id.
  - destruct (has_audio_extension file); simpl; [|by apply IH].
    rewrite Hl.
    rewrite (IH _ (tracks ++ [path_join folder_path file]))
      by apply lookup_insert_eq.
    by rewrite insert_insert_eq, <- app_assoc.
Qed.

(** The folder loop, for any list of distinct emotions that are keys of the
    dictionary, when none of the folders is a regular file. *)
Lemma load_folders_ok (fs : filesystem) (songs_dir : string)
    (emotions : list string) (songs : gmap string (list string)) :
  NoDup emotions →
  (∀ e, e ∈ emotions → is_Some (songs !! e)) →
  (∀ e, e ∈ emotions → fs (path_join songs_dir e) ≠ Some RegularFile) →
  ∃ songs',
    load_folders fs songs_dir emotions songs
    = (inr songs',
       flat_map (λ e, match songs' !! e with
                      | Some [] => [NoSongsFound (path_join songs_dir e)]
                      | _ => []
                      end) emotions)
    ∧ (∀ e, e ∈ emotions →
         ∃ tracks, songs !! e = Some tracks
                   ∧ songs' !! e
                     = Some (tracks ++ folder_tracks fs songs_dir e))
    ∧ (∀ k, k ∉ emotions → songs' !! k = songs !! k).
Proof.
  revert songs. induction emotions as [|e emotions IH];
    intros songs Hnd Hkeys Hfs.
  - exists songs. split_and!; [done| |done].
    intros e He. by apply elem_of_nil in He.
  - apply NoDup_cons in Hnd as [Hnot Hnd].
    destruct (Hkeys e) as [tracks Htracks]; [apply list_elem_of_here|].
    set (found := folder_tracks fs songs_dir e).
    assert (∃ songs1,
              (if path_exists fs (path_join songs_dir e)
               then match listdir fs (path_join songs_dir e) with
                    | inl err => inl err
                    | inr files =>
                        scan_files (path_join songs_dir e) e files songs
                    end
               else inr songs) = inr songs1
              ∧ songs1 = <[e := tracks ++ found]> songs)
      as (songs1 & Hscan & ->).
    { unfold path_exists, listdir, found, folder_tracks.
      destruct (fs (path_join songs_dir e)) as [[|names]|] eqn:E.
      - by destruct (Hfs e (list_elem_of_here _ _)).
      - eexists. split; [by apply scan_files_ok|done].
      - eexists. split; [done|]. by rewrite app_nil_r, insert_id. }
    destruct (IH (<[e := tracks ++ found]> songs)) as (songs' & Hrest & Hin & Hout).
    + done.
    + intros e' He'. destruct (decide (e = e')) as [->|Hne].
      * rewrite lookup_insert_eq. by eexists.
      * rewrite lookup_insert_ne by done. by apply Hkeys, list_elem_of_further.
    + intros e' He'. by apply Hfs, list_elem_of_further.
    + exists songs'. cbn [load_folders]. rewrite Hscan, lookup_insert_eq.
      rewrite Hrest. cbn [fst snd flat_map].
      assert (songs' !! e = Some (tracks ++ found)) as He.
      { rewrite (Hout e Hnot). apply lookup_insert_eq. }
      rewrite He. split_and!; [done| |].
      * intros e' He'. apply elem_of_cons in He' as [->|He'].
        { exists tracks. by split. }
        destruct (Hin e' He') as (tracks' & Hl & Hl').
        rewrite lookup_insert_ne in Hl by (intros ->; done).
        by exists tracks'.
      * intros k Hk. apply not_elem_of_cons in Hk as [Hk1 Hk2].
        rewrite (Hout k Hk2). by rewrite lookup_insert_ne.
Qed.

(** The folder loop raises as soon as it meets a folder path that is a
    regular file. *)
Lemma load_folders_not_a_directory (fs : filesystem) (songs_dir : string)
    (emotions : list string) (songs : gmap string (list string))
    (bad : string) :
  (∀ e, e ∈ emotions → is_Some (songs !! e)) →
  bad ∈ emotions → fs (path_join songs_dir bad) = Some RegularFile →
  (load_folders fs songs_dir emotions songs).1
  = inl (OtherError "NotADirectoryError").
Proof.
  revert songs. induction emotions as [|e emotions IH];
    intros songs Hkeys Hbad Hfs.
  - by apply elem_of_nil in Hbad.
  - destruct (Hkeys e) as [tracks Htracks]; [apply list_elem_of_here|].
    cbn [load_folders]. unfold path_exists, listdir.
    destruct (fs (path_join songs_dir e)) as [[|names]|] eqn:E.
    + done.
    + rewrite (scan_files_ok _ _ _ _ tracks) by done.
      rewrite lookup_insert_eq. cbn [fst].
      apply elem_of_cons in Hbad as [->|Hbad]; [congruence|].
      apply IH; try done.
      intros e' He'. destruct (decide (e = e')) as [->|Hne].
      * rewrite lookup_insert_eq. by eexists.
      * rewrite lookup_insert_ne by done. by apply Hkeys, list_elem_of_further.
    + rewrite Htracks. cbn [fst].
      apply elem_of_cons in Hbad as [->|Hbad]; [congruence|].
      apply IH; try done.
      intros e' He'. by apply Hkeys, list_elem_of_further.
Qed.

Lemma initial_songs_keys (e : string) :
  e ∈ moods →
  (<["happy" := []]> (<["sad" := []]> (<["neutral" := []]> ∅))
     : gmap string (list string)) !! e = Some [].
Proof.
  unfold moods. rewrite !elem_of_cons.
  intros [->|[->|[->|H]]]; [done..|by apply elem_of_nil in H].
Qed.

Lemma initial_songs_other (k : string) :
  k ∉ moods →
  (<["happy" := []]> (<["sad" := []]> (<["neutral" := []]> ∅))
     : gmap string (list string)) !! k = None.
Proof.
  unfold moods. rewrite !not_elem_of_cons. intros (H1 & H2 & H3 & _).
  by rewrite !lookup_insert_ne, lookup_empty.
Qed.

Lemma moods_NoDup : NoDup moods.
Proof.
  unfold moods. repeat (apply NoDup_cons; split);
    rewrite ?not_elem_of_cons; try apply NoDup_nil_2;
    split_and?; try discriminate; apply not_elem_of_nil.
Qed.

(** [load_songs] when no mood folder is a regular file. *)
Lemma load_songs_ok (fs : filesystem) (songs_dir : string) :
  (∀ mood, mood ∈ moods →
           fs (path_join songs_dir mood) ≠ Some RegularFile) →
  ∃ catalog log,
    load_songs fs songs_dir = (inr catalog, log)
    ∧ (∀ mood, mood ∈ moods →
         catalog !! mood = Some (folder_tracks fs songs_dir mood))
    ∧ (∀ k, k ∉ moods → catalog !! k = None).
Proof.
  intros Hfs.
  destruct (load_folders_ok fs songs_dir moods
              (<["happy" := []]> (<["sad" := []]> (<["neutral" := []]> ∅))))
    as (catalog & Heq & Hin & Hout); [apply moods_NoDup| |exact Hfs|].
  { intros e He. rewrite (initial_songs_keys e He). by eexists. }
  exists catalog. eexists. split; [exact Heq|]. split.
  - intros mood Hm. destruct (Hin mood Hm) as (tracks & H0 & ->).
    rewrite (initial_songs_keys mood Hm) in H0. by injection H0 as <-.
  - intros k Hk. rewrite (Hout k Hk). by apply initial_songs_other.
Qed.




(** When [load_songs] returns, no mood folder was a regular file. *)
Lemma load_songs_returned (fs : filesystem) (songs_dir : string)
    (catalog : gmap string (list string)) :
  (load_songs fs songs_dir).1 = inr catalog →
  ∀ mood, mood ∈ moods → fs (path_join songs_dir mood) ≠ Some RegularFile.
Proof.
  intros Hret mood Hm Hfile.
  unfold load_songs in Hret.
  rewrite (load_folders_not_a_directory fs songs_dir _ _ mood) in Hret;
    try done.
  intros e He. rewrite (initial_songs_keys e He). by eexists.
Qed.

(** X2: every track of a loaded catalog is a file listed in the folder of
    its mood, joined to that folder, and its path ends with one of the
    extensions .mp3, .wav, .ogg, .flac (compared case-sensitively). *)
Theorem load_songs_tracks_are_audio (fs : filesystem) (songs_dir : string)
    (catalog : gmap string (list string)) (log : list load_message)
    (mood : string) (tracks : list string) (path : string) :
  load_songs fs songs_dir = (inr catalog, log) →
  catalog !! mood = Some tracks → path ∈ tracks →
  mood ∈ moods
  ∧ (∃ names file,
       fs (path_join songs_dir mood) = Some (Directory names)
       ∧ file ∈ names
       ∧ path = path_join (path_join songs_dir mood) file)
  ∧ ∃ ext stem,
      ext ∈ audio_extensions ∧ path = String.append stem ext.
Proof.
  intros Hload Hl Hpath.
  pose proof (load_songs_returned fs songs_dir catalog) as Hfs.
  rewrite Hload in Hfs. specialize (Hfs eq_refl).
  destruct (load_songs_ok fs songs_dir Hfs)
    as (catalog' & log' & Heq & Hin & Hout).
  rewrite Hload in Heq. injection Heq as <- <-.
  destruct (decide (mood ∈ moods)) as [Hm|Hm];
    [|rewrite (Hout mood Hm) in Hl; discriminate].
  rewrite (Hin mood Hm) in Hl. injection Hl as <-.
  unfold folder_tracks in Hpath.
  destruct (fs (path_join songs_dir mood)) as [[|names]|] eqn:E;
    try (by apply elem_of_nil in Hpath).
  apply list_elem_of_fmap in Hpath as (file & -> & Hfile).
  apply list_elem_of_In, List.filter_In in Hfile as [Hfile Hext].
  apply list_elem_of_In in Hfile.
  split_and!; [done|by exists names, file|].
  unfold has_audio_extension in Hext.
  apply List.existsb_exists in Hext as (ext & Hext & Hends).
  apply list_elem_of_In in Hext.
  apply (path_join_endswith (path_join songs_dir mood)) in Hends.
  apply str_endswith_spec in Hends as [stem Hstem].
  by exists ext, stem.
Qed.

Lemma load_songs_tracks_are_audio_witness :
  let fs : filesystem := λ path,
    if String.eqb path "songs/sad"
    then Some (Directory ["rain.ogg"; "cover.JPG"])
    else None in
  ∃ catalog log,
    load_songs fs "songs" = (inr catalog, log)
    ∧ ∃ ext stem,
        ext ∈ audio_extensions
        ∧ "songs/sad/rain.ogg" = String.append stem ext.
Proof.
  intros fs.
  destruct (load_songs fs "songs") as [[e|catalog] log] eqn:Hload;
    [vm_compute in Hload; discriminate|].
  exists catalog, log. split; [reflexivity|].
  destruct (load_songs_tracks_are_audio fs "songs" catalog log "sad"
              ["songs/sad/rain.ogg"] "songs/sad/rain.ogg")
    as (_ & _ & H); [exact Hload| |apply list_elem_of_here|exact H].
  vm_compute in Hload. injection Hload as <- <-. reflexivity.
Defined.

(** X3: the warnings [load_songs] prints are, in the order happy, sad,
    neutral, one per mood whose bucket came out empty, naming the mood's
    folder; a mood with at least one track gets none. *)
Theorem load_songs_warnings (fs : filesystem) (songs_dir : string)
    (catalog : gmap string (list string)) (log : list load_message) :
  load_songs fs songs_dir = (inr catalog, log) →
  log = flat_map
          (λ mood, match catalog !! mood with
                   | Some [] => [NoSongsFound (path_join songs_dir mood)]
                   | _ => []
                   end) moods
  ∧ ∀ mood, mood ∈ moods →
      (NoSongsFound (path_join songs_dir mood) ∈ log
       ↔ folder_tracks fs songs_dir mood = []
         ∨ ∃ other, other ∈ moods
                    ∧ folder_tracks fs songs_dir other = []
                    ∧ path_join songs_dir other
                      = path_join songs_dir mood).
Proof.
  intros Hload.
  pose proof (load_songs_returned fs songs_dir catalog) as Hfs.
  rewrite Hload in Hfs. specialize (Hfs eq_refl).
  destruct (load_songs_ok fs songs_dir Hfs)
    as (catalog' & log' & Heq & Hin & Hout).
  rewrite Hload in Heq. injection Heq as <- <-.
  destruct (load_folders_ok fs songs_dir moods
              (<["happy" := []]> (<["sad" := []]> (<["neutral" := []]> ∅))))
    as (catalog' & Heq & _).
  { apply moods_NoDup. }
  { intros e He. rewrite (initial_songs_keys e He). by eexists. }
  { exact Hfs. }
  change (load_folders fs songs_dir moods _)
    with (load_songs fs songs_dir) in Heq.
  rewrite Hload in Heq.
  assert (catalog' = catalog) as -> by congruence.
  match type of Heq with
  | _ = (_, ?l) => assert (log = l) as Hlog by congruence
  end.
  split; [exact Hlog|].
  intros mood Hm. rewrite Hlog, list_elem_of_In, List.in_flat_map. split.
  - intros (other & Ho & Hw). apply list_elem_of_In in Ho.
    rewrite (Hin other Ho) in Hw.
    destruct (folder_tracks fs songs_dir other) eqn:E; [|done].
    destruct Hw as [Hw|[]]. injection Hw as Hw.
    right. by exists other.
  - intros [He|(other & Ho & He & Hp)].
    + exists mood. split; [by apply list_elem_of_In|].
      rewrite (Hin mood Hm), He. by left.
    + exists other. split; [by apply list_elem_of_In|].
      rewrite (Hin other Ho), He, Hp. by left.
Qed.

Lemma load_songs_warnings_witness :
  let fs : filesystem := λ path,
    if String.eqb path "songs/happy" then Some (Directory ["a.mp3"])
    else if String.eqb path "songs/sad" then Some (Directory ["readme.md"])
    else None in
  ∃ catalog,
    load_songs fs "songs"
    = (inr catalog,
       [NoSongsFound "songs/sad"; NoSongsFound "songs/neutral"]).
Proof.
  intros fs.
  destruct (load_songs fs "songs") as [[e|catalog] log] eqn:Hload;
    [vm_compute in Hload; discriminate|].
  exists catalog.
  destruct (load_songs_warnings fs "songs" catalog log Hload) as [-> _].
  vm_compute in Hload. injection Hload as <- _. reflexivity.
Defined.

(** X4: when the path of a mood folder exists but is a regular file,
    [os.listdir] raises and nothing catches it: [load_songs] raises
    NotADirectoryError, and so do the constructor and [main]. *)
Theorem load_songs_not_a_directory (st : Startup) (fs : filesystem)
    (songs_dir mood : string) (opened : bool) (frames : list Frame) :
  mood ∈ moods → fs (path_join songs_dir mood) = Some RegularFile →
  (load_songs fs songs_dir).1 = inl (OtherError "NotADirectoryError")
  ∧ (detector_error st = None → mixer_init_error st = None →
     (construct st fs songs_dir).1
     = inl (OtherError "NotADirectoryError")
     ∧ (songs_dir = "songs" →
        (main st fs opened frames).2
        = inl (OtherError "NotADirectoryError"))).
Proof.
  intros Hm Hfile.
  assert ((load_songs fs songs_dir).1
          = inl (OtherError "NotADirectoryError")) as Hload.
  { apply (load_folders_not_a_directory fs songs_dir _ _ mood); try done.
    intros e He. rewrite (initial_songs_keys e He). by eexists. }
  split; [exact Hload|]. intros Hd Hx.
  assert ((construct st fs songs_dir).1
          = inl (OtherError "NotADirectoryError")) as Hc.
  { unfold construct. rewrite Hd, Hx.
    destruct (load_songs fs songs_dir) as [r log]. simpl in *. by subst r. }
  split; [exact Hc|]. intros ->. unfold main.
  destruct (construct st fs "songs") as [r log]. simpl in Hc. by subst r.
Qed.

Lemma load_songs_not_a_directory_witness :
  let fs : filesystem := λ path,
    if String.eqb path "songs/sad" then Some RegularFile else None in
  (load_songs fs "songs").1 = inl (OtherError "NotADirectoryError").
Proof.
  intros fs.
  apply (load_songs_not_a_directory (mkStartup None None) fs "songs" "sad"
           true []).
  - apply list_elem_of_further, list_elem_of_here.
  - reflexivity.
Defined.

(** ** More on the normalizer, the smoother and the history *)

(** X5: [return_confidence] only adds the confidence: both modes report the
    same category. A reported category is always happy, sad or neutral, and
    then the reported confidence is the score of some entry and reaches the
    threshold. *)
Theorem normalizer_result_shape (self : Player)
    (emotions : list (string * Q)) :
  (∃ category confidence,
     get_dominant_emotion_category self emotions true
     = inr (WithConfidence category confidence)
     ∧ get_dominant_emotion_category self emotions false
       = inr (Bare category))
  ∧ ∀ c confidence,
      get_dominant_emotion_category self emotions true
      = inr (WithConfidence (Some c) confidence) →
      c ∈ moods
      ∧ (confidence_threshold self <= confidence)%Q
      ∧ ∃ label, (label, confidence) ∈ emotions.
Proof.
  destruct emotions as [|e0 emotions].
  { split; [by eexists _, _|]. intros c confidence H. discriminate. }
  destruct (dominant_is_max e0 emotions) as (Hin & _ & _).
  cbn [get_dominant_emotion_category py_max].
  destruct (max_from Qltb snd e0 emotions) as [label confidence].
  destruct (Qltb confidence (confidence_threshold self)) eqn:E.
  - split; [by eexists _, _|]. intros c conf H. discriminate.
  - split; [by eexists _, _|]. intros c conf H.
    rewrite map_category_table in H.
    assert (c = grouping_table label) as -> by congruence.
    assert (conf = confidence) as -> by congruence.
    split_and!; [apply grouping_table_mood|by apply Qltb_false|].
    by exists label.
Qed.

Lemma normalizer_result_shape_witness :
  ∃ c, get_dominant_emotion_category (init ∅)
         [("fear", 4 # 10); ("happy", 3 # 10)]%Q true
       = inr (WithConfidence (Some c) (4 # 10)%Q)
       ∧ c ∈ moods.
Proof.
  exists "sad". split; [reflexivity|].
  destruct (normalizer_result_shape (init ∅)
              [("fear", 4 # 10); ("happy", 3 # 10)]%Q) as [_ H].
  apply (H "sad" (4 # 10)%Q). reflexivity.
Defined.

Lemma dict_set_keys_eq (d : list (string * nat)) (k : string) (v : nat) :
  (dict_set d k v).*1 = if decide (k ∈ d.*1) then d.*1 else d.*1 ++ [k].
Proof.
  induction d as [|[k0 v0] d IH]; cbn [dict_set fmap list_fmap fst].
  - destruct (decide (k ∈ [])) as [H|H]; [by apply elem_of_nil in H|done].
  - destruct (String.eqb_spec k0 k) as [->|Hne];
      cbn [fmap list_fmap fst].
    + destruct (decide (k ∈ k :: d.*1)) as [H|H]; [done|].
      exfalso. apply H, list_elem_of_here.
    + change (list_fmap _ _ fst (dict_set d k v)) with (dict_set d k v).*1.
      rewrite IH.
      destruct (decide (k ∈ d.*1)) as [Hin|Hnot];
        destruct (decide (k ∈ k0 :: d.*1)) as [Hin'|Hnot']; try done.
      * exfalso. apply Hnot'. by apply list_elem_of_further.
      * apply elem_of_cons in Hin' as [->|Hin']; done.
Qed.

Lemma count_emotions_app (a b : list string) (counts : list (string * nat)) :
  count_emotions (a ++ b) counts = count_emotions b (count_emotions a counts).
Proof.
  revert counts. induction a as [|e a IH]; intros counts; simpl; [done|].
  destruct (negb (String.eqb e "")); apply IH.
Qed.

(** Counting only ever adds keys at the end. *)
Lemma count_emotions_keys_extend (history : list string)
    (counts : list (string * nat)) :
  ∃ ext, (count_emotions history counts).*1 = counts.*1 ++ ext.
Proof.
  revert counts. induction history as [|e history IH]; intros counts; simpl.
  - exists []. by rewrite app_nil_r.
  - destruct (negb (String.eqb e "")); [|apply IH].
    destruct (IH (dict_set counts e (dict_get counts e 0 + 1))) as [ext ->].
    rewrite dict_set_keys_eq. destruct (decide (e ∈ counts.*1)).
    + by exists ext.
    + exists (e :: ext). by rewrite <- app_assoc.
Qed.

Lemma count_emotions_keys_sub (history : list string)
    (counts : list (string * nat)) (k : string) :
  k ∈ (count_emotions history counts).*1 → k ∈ counts.*1 ∨ k ∈ history.
Proof.
  revert counts. induction history as [|e history IH]; intros counts; simpl.
  - by left.
  - destruct (negb (String.eqb e "")).
    + intros [H|H]%IH.
      * apply dict_set_keys in H as [->|H]; [right|by left].
        apply list_elem_of_here.
      * right. by apply list_elem_of_further.
    + intros [H|H]%IH; [by left|right]. by apply list_elem_of_further.
Qed.

Lemma count_emotions_keys_sup (history : list string)
    (counts : list (string * nat)) (k : string) :
  k ≠ "" → k ∈ history → k ∈ (count_emotions history counts).*1.
Proof.
  intros Hk. revert counts.
  induction history as [|e history IH]; intros counts Hin; simpl.
  - by apply elem_of_nil in Hin.
  - apply elem_of_cons in Hin as [<-|Hin].
    + apply String.eqb_neq in Hk. rewrite Hk. simpl.
      destruct (count_emotions_keys_extend history
                  (dict_set counts k (dict_get counts k 0 + 1))) as [ext ->].
      apply elem_of_app. left. rewrite dict_set_keys_eq.
      destruct (decide (k ∈ counts.*1)); [done|].
      apply elem_of_app. right. apply list_elem_of_here.
    + destruct (negb (String.eqb e "")); by apply IH.
Qed.

Lemma NoDup_split_unique {A : Type} (l1 l2 l1' l2' : list A) (x : A) :
  NoDup (l1 ++ x :: l2) → l1 ++ x :: l2 = l1' ++ x :: l2' → l1 = l1'.
Proof.
  revert l1'. induction l1 as [|a l1 IH]; intros l1' Hnd Heq.
  - destruct l1' as [|b l1']; [done|]. simpl in *.
    injection Heq as <- Heq. apply NoDup_cons in Hnd as [Hnot _].
    exfalso. apply Hnot. rewrite Heq. apply elem_of_app. right.
    apply list_elem_of_here.
  - destruct l1' as [|b l1']; simpl in *.
    + injection Heq as -> Heq. apply NoDup_cons in Hnd as [Hnot _].
      exfalso. apply Hnot. apply elem_of_app. right.
      apply list_elem_of_here.
    + injection Heq as <- Heq. apply NoDup_cons in Hnd as [_ Hnd].
      f_equal. by apply IH.
Qed.

(** X6: ties in the smoothed emotion go to the category seen first in the
    history (the oldest first occurrence): every category that occurs in the
    history before the first occurrence of the smoothed emotion occurs
    strictly less often than it. *)
Theorem smoothed_first_seen_wins (self : Player) (c : string)
    (pre post : list string) :
  get_smoothed_emotion self = inr (Some c) →
  (∀ e, e ∈ emotion_history self → e ≠ "") →
  emotion_history self = pre ++ c :: post → c ∉ pre →
  ∀ d, d ∈ pre →
       occurrences d (emotion_history self)
       < occurrences c (emotion_history self).
Proof.
  intros Hs Ht Hsplit Hfirst d Hd.
  unfold get_smoothed_emotion in Hs.
  destruct (Nat.ltb _ _); [discriminate|].
  set (h := emotion_history self) in *.
  pose proof (count_emotions_NoDup h [] (NoDup_nil_2)) as Hnd.
  assert (∀ k, dict_get (count_emotions h []) k 0 = occurrences k h) as Hget.
  { intros k. by rewrite count_emotions_get. }
  assert (∃ ext, (count_emotions h []).*1
                 = (count_emotions pre []).*1 ++ c :: ext) as [ext Hkeys].
  { rewrite Hsplit, count_emotions_app. simpl.
    assert (c ≠ "") as Hc.
    { apply Ht. rewrite Hsplit. apply elem_of_app. right.
      apply list_elem_of_here. }
    apply String.eqb_neq in Hc. rewrite Hc. simpl.
    destruct (count_emotions_keys_extend post
                (dict_set (count_emotions pre [])
                   c (dict_get (count_emotions pre []) c 0 + 1)))
      as [ext ->].
    rewrite dict_set_keys_eq. rewrite decide_False.
    - exists ext. by rewrite <- app_assoc.
    - intros [H|H]%count_emotions_keys_sub; [|done].
      by apply elem_of_nil in H. }
  assert (d ∈ (count_emotions pre []).*1) as Hdk.
  { apply count_emotions_keys_sup; [|done].
    apply Ht. rewrite Hsplit. apply elem_of_app. by left. }
  destruct (count_emotions h []) as [|i0 counts] eqn:Ec; [discriminate|].
  cbn [py_max] in Hs.
  destruct (max_from_first Nat.ltb lt le snd
              ltac:(intros a b ?%Nat.ltb_ge; lia)
              ltac:(intros a b ?%Nat.ltb_lt; lia)
              ltac:(intros; lia) ltac:(intros; lia) [] i0 [] counts)
    as (before & after & Heq & Hlt).
  { intros x Hx. by apply elem_of_nil in Hx. }
  { intros x Hx. by apply elem_of_nil in Hx. }
  pose proof (max_from_elem Nat.ltb snd i0 counts) as Hin.
  destruct (max_from Nat.ltb snd i0 counts) as [c' n].
  injection Hs as ->. cbn [fst snd app] in *.
  assert (n = occurrences c h) as ->.
  { rewrite <- Hget. symmetry. by apply dict_get_elem_NoDup. }
  assert (before.*1 = (count_emotions pre []).*1) as Hbefore.
  { apply (NoDup_split_unique _ after.*1 _ ext c).
    - rewrite Heq in Hnd. by rewrite fmap_app, fmap_cons in Hnd.
    - rewrite <- Hkeys, Heq. by rewrite fmap_app, fmap_cons. }
  rewrite <- Hbefore in Hdk.
  apply list_elem_of_fmap in Hdk as ([d' v] & -> & Hdv). simpl.
  specialize (Hlt _ Hdv). simpl in Hlt.
  assert (v = occurrences d' h) as <-; [|done].
  rewrite <- Hget. symmetry. apply dict_get_elem_NoDup; [done|].
  rewrite Heq. apply elem_of_app. by left.
Qed.

Lemma smoothed_first_seen_wins_witness :
  let self := pushes ["happy"; "sad"; "sad"; "happy"; "sad"] (init ∅) in
  get_smoothed_emotion self = inr (Some "sad")
  ∧ (∀ d, d ∈ ["happy"] →
          occurrences d ["happy"; "sad"; "sad"; "happy"; "sad"]
          < occurrences "sad" ["happy"; "sad"; "sad"; "happy"; "sad"]).
Proof.
  split; [reflexivity|].
  apply (smoothed_first_seen_wins
           (pushes ["happy"; "sad"; "sad"; "happy"; "sad"] (init ∅))
           "sad" ["happy"] ["sad"; "happy"; "sad"]).
  - reflexivity.
  - intros e He.
    change (e ∈ ["happy"; "sad"; "sad"; "happy"; "sad"]) in He.
    rewrite !elem_of_cons in He.
    destruct He as [->|[->|[->|[->|[->|He]]]]]; try discriminate.
    by apply elem_of_nil in He.
  - reflexivity.
  - intros [H|H]%elem_of_cons; [discriminate|by apply elem_of_nil in H].
Defined.

(** X7: the history is a sliding window: appended to any history of at most
    ten entries, a sequence of categories leaves the last ten entries of the
    old history followed by the sequence. *)
Theorem history_sliding_window (self : Player) (categories : list string) :
  length (emotion_history self) ≤ 10 →
  emotion_history (pushes categories self)
  = drop (length (emotion_history self ++ categories) - 10)
      (emotion_history self ++ categories).
Proof.
  intros Hlen. induction categories as [|c categories IH] using rev_ind.
  - rewrite app_nil_r.
    replace (length (emotion_history self) - 10) with 0 by lia. done.
  - rewrite pushes_snoc. simpl. rewrite IH. unfold deque_append.
    set (h := emotion_history self) in *.
    rewrite app_assoc. set (l := h ++ categories) in *.
    rewrite !length_app, length_drop. simpl. unfold history_maxlen.
    destruct (Nat.ltb_spec 10 (length l - (length l - 10) + 1))
      as [Hlt|Hge].
    + rewrite drop_app_le by (rewrite length_drop; lia).
      rewrite drop_drop, drop_app_le by lia.
      f_equal. f_equal. lia.
    + replace (length l - 10) with 0 by lia.
      replace (length l + 1 - 10) with 0 by lia.
      by rewrite !drop_0.
Qed.

Lemma history_sliding_window_witness :
  emotion_history
    (pushes ["sad"; "sad"]
       (pushes ["happy"; "happy"; "happy"; "happy"; "happy"; "happy";
                "happy"; "happy"; "happy"] (init ∅)))
  = ["happy"; "happy"; "happy"; "happy"; "happy"; "happy"; "happy";
     "happy"; "sad"; "sad"].
Proof.
  rewrite history_sliding_window; [reflexivity|].
  simpl. lia.
Defined.

(** ** What one call, one check and one iteration can do *)

Lemma set_current_song_same (self : Player) :
  set_current_song (current_song self) self = self.
Proof. by destruct self. Qed.

(** A returning [play_song_for_emotion] changes at most [current_song], and
    then to the song it loaded; whatever it loads is a track of the bucket
    of the emotion it was called for; it never shuts the mixer down. *)
Lemma play_song_effect (self : Player) (emotion : option string) (fr : Frame)
    (self' : Player) (log : list event) :
  play_song_for_emotion emotion fr self = (inr tt, self', log) →
  (self' = self
   ∨ ∃ song, self' = set_current_song (Some song) self
             ∧ song ∈ loaded_songs log)
  ∧ (∀ song, song ∈ loaded_songs log →
       ∃ tracks, bucket self emotion = Some tracks ∧ song ∈ tracks)
  ∧ MixerQuit ∉ log.
Proof.
  intros Hplay.
  assert (bucket self emotion = None ∨ bucket self emotion = Some []
          ∨ ∃ tracks, bucket self emotion = Some tracks ∧ tracks ≠ [])
    as [Hb|[Hb|(tracks & Hb & Hne)]].
  { destruct (bucket self emotion) as [[|t tracks]|];
      [by right; left|right; right; by eexists|by left]. }
  - unfold play_song_for_emotion in Hplay. unfold_M. rewrite Hb in Hplay.
    injection Hplay as <- <-. split_and!; [by left| |].
    + intros song H. by apply elem_of_nil in H.
    + rewrite !not_elem_of_cons. split; [done|apply not_elem_of_nil].
  - unfold play_song_for_emotion in Hplay. unfold_M. rewrite Hb in Hplay.
    injection Hplay as <- <-. split_and!; [by left| |].
    + intros song H. by apply elem_of_nil in H.
    + rewrite !not_elem_of_cons. split; [done|apply not_elem_of_nil].
  - destruct (play_song_with_tracks self emotion fr tracks Hb Hne)
      as (song & Hin & Heq).
    rewrite Heq in Hplay.
    destruct (load_error fr) as [e|]; [|destruct (play_error fr) as [e|]];
      injection Hplay as <- <-; (split_and!; [| |]).
    all: try (by left).
    all: try (right; exists song; split; [done|]; simpl;
              apply list_elem_of_here).
    all: try (intros song' H; simpl in H;
              apply list_elem_of_singleton in H as ->; by exists tracks).
    all: rewrite !not_elem_of_cons; split_and!; try done;
         apply not_elem_of_nil.
Qed.

(** The ways a stability check can return. *)
Lemma gate_outcomes (fr : Frame) (s : option string) (loc : Locals)
    (self : Player) (loc' : Locals) (self' : Player) (log : list event) :
  stability_gate fr s loc self = (inr loc', self', log) →
  (self' = self ∧ log = []
   ∧ (loc' = loc
      ∨ (truthy s = true ∧ s ≠ current_emotion self
         ∧ pending_emotion loc ≠ s
         ∧ loc' = set_pending s (Some (now fr)) loc)))
  ∨ (truthy s = true ∧ s ≠ current_emotion self
     ∧ pending_emotion loc = s
     ∧ ∃ t0, pending_emotion_time loc = Some t0
             ∧ (emotion_stability_threshold self <= now fr - t0)%Q
             ∧ loc' = set_pending None (Some t0) loc
             ∧ play_song_for_emotion s fr (set_current_emotion s self)
               = (inr tt, self', log))
  ∨ (s = current_emotion self
     ∧ loc' = set_pending None (pending_emotion_time loc) loc
     ∧ ∃ plog, log = MusicGetBusy :: plog
               ∧ ((self' = self ∧ plog = [])
                  ∨ (busy fr = false
                     ∧ truthy (current_emotion self) = true
                     ∧ play_song_for_emotion (current_emotion self) fr self
                       = (inr tt, self', plog)))).
Proof.
  intros Hgate.
  destruct (decide (s = current_emotion self)) as [->|Hc].
  { right. right.
    destruct (gate_same self loc fr)
      as (self2 & log2 & Heq & _ & _ & Hplay & Hidle).
    rewrite Heq in Hgate. injection Hgate as <- <- <-.
    split_and!; try done. exists log2. split; [done|].
    destruct (busy fr) eqn:Hb.
    - left. by apply Hidle; left.
    - destruct (truthy (current_emotion self)) eqn:Ht.
      + right. split_and!; try done. by apply Hplay.
      + left. by apply Hidle; right. }
  destruct (truthy s) eqn:Ht.
  2:{ rewrite gate_nothing in Hgate by done. injection Hgate as <- <- <-.
      left. split_and!; try done. by left. }
  destruct (decide (pending_emotion loc = s)) as [Hp|Hp].
  2:{ rewrite gate_new_candidate in Hgate by done.
      injection Hgate as <- <- <-. left. split_and!; try done. by right. }
  destruct (pending_emotion_time loc) as [t0|] eqn:Et.
  2:{ by rewrite gate_raises in Hgate. }
  destruct (Qlt_le_dec (now fr - t0) (emotion_stability_threshold self))
    as [Hlt|Hle].
  - rewrite (gate_waiting self loc fr s t0) in Hgate by done.
    injection Hgate as <- <- <-. left. split_and!; try done. by left.
  - destruct (gate_commit self loc fr s t0)
      as (self2 & log2 & Hplay & Heq & _ & _); try done.
    rewrite Heq in Hgate. injection Hgate as <- <- <-.
    right. left. split_and!; try done. by exists t0.
Qed.

(** The ways an analysed frame can return. *)
Lemma analyze_outcomes (fr : Frame) (loc : Locals) (self : Player)
    (loc1 : Locals) (self1 : Player) (log1 : list event) :
  analyze fr loc self = (inr loc1, self1, log1) →
  (loc1 = loc ∧ self1 = self
   ∧ (log1 = [] ∨ ∃ e, log1 = [Print (DetectionError e)]))
  ∨ ∃ category confidence smoothed,
      category ∈ moods
      ∧ (confidence_threshold self <= confidence)%Q
      ∧ get_smoothed_emotion (history_append category self) = inr smoothed
      ∧ stability_gate fr smoothed
          (set_last_detected (Some category) confidence loc)
          (history_append category self)
        = (inr loc1, self1, log1).
Proof.
  intros Ha. destruct (analyze_no_data fr loc self) as (H1 & H2 & H3).
  destruct (detection fr) as [e|[|f faces]] eqn:Ed.
  - rewrite (H1 e eq_refl) in Ha. injection Ha as <- <- <-.
    left. split_and!; try done. right. by exists e.
  - rewrite (H2 eq_refl) in Ha. injection Ha as <- <- <-.
    left. split_and!; try done. by left.
  - destruct (dominant_shape self
                (emotions (max_from Z.ltb area f faces)))
      as [(category & confidence & Hd & _) Hshape].
    destruct category as [category|].
    + right. destruct (Hshape _ _ Hd) as (Hm & Hc & _).
      destruct (analyze_data fr loc self f faces category confidence Ed Hd)
        as (smoothed & Hs & Heq).
      exists category, confidence, smoothed. split_and!; try done.
      by rewrite <- Heq.
    + rewrite (H3 f faces confidence eq_refl Hd) in Ha.
      injection Ha as <- <- <-. left. split_and!; try done. by left.
Qed.

(** The ways an iteration of the main loop can return. *)
Lemma loop_body_outcomes (fr : Frame) (loc : Locals) (self : Player)
    (continue : bool) (loc' : Locals) (self' : Player) (log : list event) :
  loop_body fr loc self = (inr (continue, loc'), self', log) →
  (read_ok fr = false ∧ continue = false ∧ loc' = loc ∧ self' = self
   ∧ log = [Print CouldNotReadFrame])
  ∨ (read_ok fr = true ∧ detection_frequency self ≠ 0
     ∧ ∃ loc1 log1,
         ((frame_count loc mod detection_frequency self ≠ 0
           ∧ loc1 = loc ∧ self' = self ∧ log1 = [])
          ∨ (frame_count loc mod detection_frequency self = 0
             ∧ analyze fr loc self = (inr loc1, self', log1)))
         ∧ ((key_q fr = true ∧ continue = false ∧ loc' = loc1
             ∧ log = log1 ++ [Print Stopping])
            ∨ (key_q fr = false ∧ continue = true
               ∧ loc' = set_frame_count (frame_count loc1 + 1) loc1
               ∧ log = log1))).
Proof.
  unfold loop_body. destruct (read_ok fr); simpl.
  2:{ unfold_M. intros [= <- <- <- <-]. by left. }
  unfold_M. destruct (detection_frequency self) as [|n] eqn:En; [done|].
  intros H. right. split_and!; [done..|].
  destruct (Nat.eqb_spec (frame_count loc mod S n) 0) as [Hm|Hm].
  - destruct (analyze fr loc self) as [[[e|loc1] self1] log1] eqn:Ea; [done|].
    exists loc1, log1.
    destruct (key_q fr); injection H as <- <- <- <-.
    + split; [right; by split|left]. by split_and!.
    + split; [right; by split|right]. split_and!; try done.
      by rewrite app_nil_r.
  - exists loc, [].
    destruct (key_q fr); injection H as <- <- <- <-.
    + split; [left; by split_and!|left]. by split_and!.
    + split; [left; by split_and!|right]. by split_and!.
Qed.

Lemma deque_append_elem {A : Type} (maxlen : nat) (d : list A) (x y : A) :
  y ∈ deque_append maxlen d x → y ∈ d ∨ y = x.
Proof.
  unfold deque_append. intros H.
  assert (y ∈ d ++ [x]) as Hin.
  { destruct (Nat.ltb _ _); [|done]. by eapply subseteq_drop. }
  apply elem_of_app in Hin as [Hin|Hin]; [by left|right].
  by apply list_elem_of_singleton in Hin.
Qed.

Lemma history_append_well_formed (category : string) (self : Player) :
  category ∈ moods → well_formed self →
  well_formed (history_append category self).
Proof.
  intros Hm [Hlen Hh Hc Hs]. split; simpl; try done.
  - by apply (deque_append_length history_maxlen).
  - intros c [Hin| ->]%deque_append_elem; [by apply Hh|done].
Qed.

(** The smoothed emotion, when there is one, is an entry of the history. *)
Lemma smoothed_elem (self : Player) (c : string) :
  get_smoothed_emotion self = inr (Some c) → c ∈ emotion_history self.
Proof.
  unfold get_smoothed_emotion. destruct (Nat.ltb _ _); [done|].
  destruct (count_emotions (emotion_history self) []) as [|i0 counts] eqn:E;
    [done|].
  cbn [py_max]. intros [= <-].
  pose proof (max_from_elem Nat.ltb snd i0 counts) as Hin.
  rewrite <- E in Hin.
  assert ((max_from Nat.ltb snd i0 counts).1
          ∈ (count_emotions (emotion_history self) []).*1) as Hk.
  { apply list_elem_of_fmap. by eexists. }
  apply count_emotions_keys_sub in Hk as [Hk|Hk]; [|done].
  by apply elem_of_nil in Hk.
Qed.

Lemma play_song_facts (self : Player) (emotion : option string) (fr : Frame)
    (self' : Player) (log : list event) :
  play_song_for_emotion emotion fr self = (inr tt, self', log) →
  (well_formed self → well_formed self')
  ∧ same_settings self' self
  ∧ emotion_history self' = emotion_history self
  ∧ current_emotion self' = current_emotion self
  ∧ (∀ song, song ∈ loaded_songs log →
       ∃ c tracks, emotion = Some c ∧ songs self !! c = Some tracks
                   ∧ song ∈ tracks)
  ∧ (MixerQuit ∉ log).
Proof.
  intros Hplay.
  destruct (play_song_effect self emotion fr self' log Hplay)
    as (Hself & Hloaded & Hquit).
  assert (∀ song, song ∈ loaded_songs log →
            ∃ c tracks, emotion = Some c ∧ songs self !! c = Some tracks
                        ∧ song ∈ tracks) as Hl.
  { intros song Hsong. destruct (Hloaded song Hsong) as (tracks & Hb & Hin).
    destruct emotion as [c|]; [|done]. by exists c, tracks. }
  destruct Hself as [->|(song & -> & Hsong)].
  - split_and!; try done; by split.
  - split_and!; try done; try (by split).
    intros [Hlen Hh Hc Hs]. split; simpl; try done.
    intros song' [= <-].
    destruct (Hl song Hsong) as (c & tracks & _ & H1 & H2).
    by exists c, tracks.
Qed.

(** What a returning stability check guarantees. *)
Lemma gate_facts (fr : Frame) (s : option string) (loc : Locals)
    (self : Player) (loc' : Locals) (self' : Player) (log : list event) :
  stability_gate fr s loc self = (inr loc', self', log) →
  (well_formed self → (∀ c, s = Some c → c ∈ moods) → well_formed self')
  ∧ same_settings self' self
  ∧ emotion_history self' = emotion_history self
  ∧ (∀ song, song ∈ loaded_songs log →
       ∃ c tracks, current_emotion self' = Some c
                   ∧ songs self !! c = Some tracks ∧ song ∈ tracks)
  ∧ (current_emotion self' ≠ current_emotion self →
     pending_emotion loc = s ∧ current_emotion self' = s
     ∧ ∃ t0, pending_emotion_time loc = Some t0
             ∧ (emotion_stability_threshold self <= now fr - t0)%Q)
  ∧ (MixerQuit ∉ log)
  ∧ frame_count loc' = frame_count loc.
Proof.
  intros Hgate.
  destruct (gate_outcomes fr s loc self loc' self' log Hgate)
    as [(-> & -> & Hloc)
       |[(Ht & Hc & Hp & t0 & Et & Hle & -> & Hplay)
        |(-> & -> & plog & -> & Hplay)]].
  - split_and!.
    + done.
    + by split.
    + done.
    + intros song H. by apply elem_of_nil in H.
    + intros H. by destruct H.
    + apply not_elem_of_nil.
    + by destruct Hloc as [->|(_ & _ & _ & ->)].
  - destruct (play_song_facts _ _ _ _ _ Hplay)
      as (Hwf2 & [S1 S2 S3 S4] & Hh & Hcur & Hl & Hq).
    simpl in *. split_and!.
    + intros [H1 H2 H3 H4] Hs. apply Hwf2.
      split; simpl; first [done|intros c ->; by apply Hs].
    + by split.
    + exact Hh.
    + intros song Hsong.
      destruct (Hl song Hsong) as (c & tracks & -> & ? & ?).
      by exists c, tracks.
    + intros _. split_and!; try done. by exists t0.
    + exact Hq.
    + done.
  - destruct Hplay as [(-> & ->)|(Hb & Ht & Hplay)].
    + split_and!.
      * done.
      * by split.
      * done.
      * intros song H. by apply elem_of_nil in H.
      * intros H. by destruct H.
      * rewrite not_elem_of_cons. split; [done|apply not_elem_of_nil].
      * done.
    + destruct (play_song_facts _ _ _ _ _ Hplay)
        as (Hwf2 & Hset & Hh & Hcur & Hl & Hq).
      split_and!.
      * intros Hwf _. by apply Hwf2.
      * exact Hset.
      * exact Hh.
      * intros song Hsong. simpl in Hsong.
        destruct (Hl song Hsong) as (c & tracks & Hc & ? & ?).
        exists c, tracks. by rewrite Hcur.
      * intros H. by rewrite Hcur in H.
      * rewrite not_elem_of_cons. by split.
      * done.
Qed.

Lemma loaded_songs_app (a b : list event) :
  loaded_songs (a ++ b) = loaded_songs a ++ loaded_songs b.
Proof. unfold loaded_songs. apply omap_app. Qed.

(** What a returning iteration of the main loop guarantees. *)
Lemma loop_body_facts (fr : Frame) (loc : Locals) (self : Player)
    (continue : bool) (loc' : Locals) (self' : Player) (log : list event) :
  loop_body fr loc self = (inr (continue, loc'), self', log) →
  (well_formed self → well_formed self')
  ∧ same_settings self' self
  ∧ (emotion_history self' = emotion_history self
     ∨ ∃ c, c ∈ moods
            ∧ read_ok fr = true
            ∧ frame_count loc mod detection_frequency self = 0
            ∧ emotion_history self'
              = deque_append history_maxlen (emotion_history self) c)
  ∧ (∀ song, song ∈ loaded_songs log →
       ∃ c tracks, current_emotion self' = Some c
                   ∧ songs self !! c = Some tracks ∧ song ∈ tracks)
  ∧ (current_emotion self' ≠ current_emotion self →
     current_emotion self' = pending_emotion loc
     ∧ pending_emotion loc' = None
     ∧ read_ok fr = true
     ∧ frame_count loc mod detection_frequency self = 0
     ∧ ∃ t0, pending_emotion_time loc = Some t0
             ∧ (emotion_stability_threshold self <= now fr - t0)%Q)
  ∧ (MixerQuit ∉ log)
  ∧ continue = negb (exits fr)
  ∧ frame_count loc'
    = (if continue then frame_count loc + 1 else frame_count loc).
Proof.
  intros Hbody.
  destruct (loop_body_outcomes _ _ _ _ _ _ _ Hbody)
    as [(Hr & -> & -> & -> & ->)|(Hr & Hf & loc1 & log1 & Hstep & Hkey)].
  { split_and!.
    - done.
    - by split.
    - by left.
    - intros song H. by apply elem_of_nil in H.
    - intros H. by destruct H.
    - rewrite not_elem_of_cons. split; [done|apply not_elem_of_nil].
    - unfold exits. by rewrite Hr.
    - done. }
  assert ((well_formed self → well_formed self')
          ∧ same_settings self' self
          ∧ (emotion_history self' = emotion_history self
             ∨ ∃ c, c ∈ moods
                    ∧ read_ok fr = true
                    ∧ frame_count loc mod detection_frequency self = 0
                    ∧ emotion_history self'
                      = deque_append history_maxlen (emotion_history self) c)
          ∧ (∀ song, song ∈ loaded_songs log1 →
               ∃ c tracks, current_emotion self' = Some c
                           ∧ songs self !! c = Some tracks ∧ song ∈ tracks)
          ∧ (current_emotion self' ≠ current_emotion self →
             current_emotion self' = pending_emotion loc
             ∧ pending_emotion loc1 = None
             ∧ read_ok fr = true
             ∧ frame_count loc mod detection_frequency self = 0
             ∧ ∃ t0, pending_emotion_time loc = Some t0
                     ∧ (emotion_stability_threshold self <= now fr - t0)%Q)
          ∧ (MixerQuit ∉ log1)
          ∧ frame_count loc1 = frame_count loc)
    as (F1 & F2 & F3 & F4 & F5 & F6 & F7).
  { destruct Hstep as [(Hm & -> & -> & ->)|(Hm & Ha)].
    { split_and!.
      - done.
      - by split.
      - by left.
      - intros song H. by apply elem_of_nil in H.
      - intros H. by destruct H.
      - apply not_elem_of_nil.
      - done. }
    destruct (analyze_outcomes _ _ _ _ _ _ Ha)
      as [(-> & -> & Hlog)|(c & conf & sm & Hc & Hconf & Hs & Hgate)].
    { split_and!.
      - done.
      - by split.
      - by left.
      - intros song H. destruct Hlog as [->|[e ->]];
          by apply elem_of_nil in H.
      - intros H. by destruct H.
      - destruct Hlog as [->|[e ->]]; [apply not_elem_of_nil|].
        rewrite not_elem_of_cons. split; [done|apply not_elem_of_nil].
      - done. }
    destruct (gate_facts _ _ _ _ _ _ _ Hgate)
      as (G1 & [S1 S2 S3 S4] & G3 & G4 & G5 & G6 & G7).
    destruct (gate_pending _ _ _ _ _ _ _ Hgate) as (P1 & _ & _).
    simpl in *. split_and!.
    - intros Hwf.
      pose proof (history_append_well_formed c self Hc Hwf) as Hwf1.
      apply G1; [done|]. intros c' ->. apply smoothed_elem in Hs.
      by apply (wf_history _ Hwf1).
    - by split.
    - right. exists c. by rewrite G3.
    - exact G4.
    - intros H. destruct (G5 H) as (Hp & Hcur & t0 & Et & Hle).
      split_and!; try done; [by rewrite Hcur|by apply P1|by exists t0].
    - exact G6.
    - exact G7. }
  destruct Hkey as [(Hk & -> & -> & ->)|(Hk & -> & -> & ->)].
  - split_and!.
    + exact F1.
    + exact F2.
    + exact F3.
    + intros song Hsong. rewrite loaded_songs_app in Hsong.
      apply elem_of_app in Hsong as [Hsong|Hsong]; [by apply F4|].
      by apply elem_of_nil in Hsong.
    + exact F5.
    + rewrite not_elem_of_app, not_elem_of_cons.
      split_and!; try done. apply not_elem_of_nil.
    + unfold exits. rewrite Hk. by destruct (read_ok fr).
    + exact F7.
  - split_and!.
    + exact F1.
    + exact F2.
    + exact F3.
    + exact F4.
    + intros H. destruct (F5 H) as (H1 & H2 & H3 & H4 & H5).
      by split_and!.
    + exact F6.
    + unfold exits. by rewrite Hr, Hk.
    + simpl. by rewrite F7.
Qed.

Lemma same_settings_trans (a b c : Player) :
  same_settings a b → same_settings b c → same_settings a c.
Proof. intros [] []. split; congruence. Qed.

(** What a returning run of the loop guarantees. *)
Lemma run_loop_facts (frames : list Frame) (loc : Locals) (self : Player)
    (continue : bool) (loc' : Locals) (self' : Player) (log : list event) :
  run_loop frames loc self = (inr (continue, loc'), self', log) →
  (well_formed self → well_formed self')
  ∧ same_settings self' self
  ∧ (∀ song, song ∈ loaded_songs log →
       ∃ c tracks, songs self !! c = Some tracks ∧ song ∈ tracks
                   ∧ (well_formed self → c ∈ moods))
  ∧ (if continue
     then (MixerQuit ∉ log)
          ∧ Forall (λ fr, exits fr = false) frames
          ∧ frame_count loc' = frame_count loc + length frames
     else ∃ log0 pre fr post,
            log = log0 ++ cleanup_events
            ∧ (MixerQuit ∉ log0)
            ∧ frames = pre ++ fr :: post
            ∧ Forall (λ fr, exits fr = false) pre
            ∧ exits fr = true
            ∧ frame_count loc' = frame_count loc + length pre).
Proof.
  revert loc self log.
  induction frames as [|fr frames IH]; intros loc self log Hrun.
  { injection Hrun as <- <- <- <-. split_and!.
    - done.
    - by split.
    - intros song H. by apply elem_of_nil in H.
    - apply not_elem_of_nil.
    - done.
    - simpl. lia. }
  cbn [run_loop] in Hrun. unfold mbind, M_bind, bind in Hrun.
  destruct (loop_body fr loc self) as [[[e|[c1 loc1]] self1] log1] eqn:Hbody;
    [done|].
  destruct (loop_body_facts _ _ _ _ _ _ _ Hbody)
    as (B1 & B2 & _ & B4 & _ & B6 & B7 & B8).
  assert (∀ song, song ∈ loaded_songs log1 →
            ∃ c tracks, songs self !! c = Some tracks ∧ song ∈ tracks
                        ∧ (well_formed self → c ∈ moods)) as Hl1.
  { intros song Hsong. destruct (B4 song Hsong) as (c & tracks & H1 & H2 & H3).
    exists c, tracks. split_and!; try done.
    intros Hwf. by apply (wf_current _ (B1 Hwf)). }
  destruct c1.
  - destruct (run_loop frames loc1 self1) as [[r2 self2] log2] eqn:Hrest.
    assert (r2 = inr (continue, loc')) as -> by congruence.
    assert (self2 = self') as -> by congruence.
    assert (log = log1 ++ log2) as -> by congruence.
    destruct (IH _ _ _ Hrest) as (R1 & R2 & R3 & R4).
    assert (exits fr = false) as Hex by (by destruct (exits fr)).
    split_and!.
    + intros Hwf. by apply R1, B1.
    + by eapply same_settings_trans.
    + intros song Hsong. rewrite loaded_songs_app in Hsong.
      apply elem_of_app in Hsong as [Hsong|Hsong]; [by apply Hl1|].
      destruct (R3 song Hsong) as (c & tracks & H1 & H2 & H3).
      exists c, tracks. rewrite <- (same_songs _ _ B2).
      split_and!; try done. intros Hwf. by apply H3, B1.
    + destruct continue.
      * destruct R4 as (Q1 & Q2 & Q3). split_and!.
        -- rewrite not_elem_of_app. by split.
        -- by apply Forall_cons.
        -- rewrite Q3, B8. simpl. lia.
      * destruct R4 as (log0 & pre & fr' & post & -> & Q1 & -> & Q2 & Q3 & Q4).
        exists (log1 ++ log0), (fr :: pre), fr', post. split_and!.
        -- by rewrite app_assoc.
        -- rewrite not_elem_of_app. by split.
        -- done.
        -- by apply Forall_cons.
        -- done.
        -- rewrite Q4, B8. simpl. lia.
  - unfold cleanup, mret, M_ret, ret, emit in Hrun. simpl in Hrun.
    assert (continue = false) as -> by congruence.
    assert (loc' = loc1) as -> by congruence.
    assert (self' = self1) as -> by congruence.
    assert (log = log1 ++ cleanup_events) as ->
      by (unfold cleanup_events; congruence).
    assert (exits fr = true) as Hex by (by destruct (exits fr)).
    split_and!.
    + exact B1.
    + exact B2.
    + intros song Hsong. rewrite loaded_songs_app in Hsong.
      apply elem_of_app in Hsong as [Hsong|Hsong]; [by apply Hl1|].
      by apply elem_of_nil in Hsong.
    + exists log1, [], fr, frames. split_and!; try done.
      rewrite B8. simpl. lia.
Qed.

Lemma init_well_formed (catalog : gmap string (list string)) :
  well_formed (init catalog).
Proof.
  split; simpl; try done; [lia|]. intros c H. by apply elem_of_nil in H.
Qed.

(** ** Properties of an iteration and of a run *)

(** X8: an iteration changes the committed emotion only on a frame that was
    read and was due for analysis, only to the emotion that was pending when
    the iteration began, and only when at least the stability threshold has
    passed since the time recorded for it; nothing is pending afterwards. *)
Theorem commit_needs_dwell (fr : Frame) (loc : Locals) (self : Player)
    (continue : bool) (loc' : Locals) (self' : Player) (log : list event) :
  loop_body fr loc self = (inr (continue, loc'), self', log) →
  current_emotion self' ≠ current_emotion self →
  current_emotion self' = pending_emotion loc
  ∧ pending_emotion loc' = None
  ∧ read_ok fr = true
  ∧ frame_count loc mod detection_frequency self = 0
  ∧ ∃ t0, pending_emotion_time loc = Some t0
          ∧ (emotion_stability_threshold self <= now fr - t0)%Q.
Proof.
  intros Hbody Hchange.
  destruct (loop_body_facts _ _ _ _ _ _ _ Hbody)
    as (_ & _ & _ & _ & H & _).
  by apply H.
Qed.

Lemma commit_needs_dwell_witness :
  let self :=
    set_emotion_history ["happy"; "happy"; "happy"]
      (set_current_emotion (Some "neutral") (init ∅)) in
  let loc := set_pending (Some "happy") (Some 10%Q) initial_locals in
  ∃ loc' self' log,
    loop_body (face_frame "happy" 14) loc self
    = (inr (true, loc'), self', log)
    ∧ current_emotion self' = Some "happy"
    ∧ pending_emotion loc' = None.
Proof.
  intros self loc.
  destruct (loop_body (face_frame "happy" 14) loc self)
    as [[r self'] log] eqn:Hbody.
  assert (∃ loc', r = inr (true, loc') ∧ current_emotion self' = Some "happy")
    as (loc' & -> & Hcur).
  { vm_compute in Hbody. injection Hbody as <- <- <-.
    eexists. split; reflexivity. }
  exists loc', self', log. split_and!; [reflexivity|exact Hcur|].
  destruct (commit_needs_dwell _ _ _ _ _ _ _ Hbody) as (_ & H & _);
    [|exact H].
  rewrite Hcur. discriminate.
Defined.

(** X9: every song an iteration loads into the mixer is a track of the
    bucket of the emotion that is committed when the iteration ends: what
    starts playing always matches the committed mood. *)
Theorem loaded_song_matches_committed_mood (fr : Frame) (loc : Locals)
    (self : Player) (continue : bool) (loc' : Locals) (self' : Player)
    (log : list event) (song : string) :
  loop_body fr loc self = (inr (continue, loc'), self', log) →
  song ∈ loaded_songs log →
  ∃ mood tracks,
    current_emotion self' = Some mood
    ∧ songs self' !! mood = Some tracks
    ∧ song ∈ tracks.
Proof.
  intros Hbody Hsong.
  destruct (loop_body_facts _ _ _ _ _ _ _ Hbody)
    as (_ & Hset & _ & H & _).
  destruct (H song Hsong) as (c & tracks & H1 & H2 & H3).
  exists c, tracks. rewrite (same_songs _ _ Hset). by split_and!.
Qed.

Lemma loaded_song_matches_committed_mood_witness :
  let self :=
    set_emotion_history ["happy"; "happy"; "happy"]
      (set_current_emotion (Some "neutral")
         (init (<["happy" := ["a.mp3"; "b.mp3"]]> ∅))) in
  let loc := set_pending (Some "happy") (Some 10%Q) initial_locals in
  ∃ continue loc' self' log,
    loop_body (face_frame "happy" 14) loc self
    = (inr (continue, loc'), self', log)
    ∧ loaded_songs log = ["a.mp3"]
    ∧ ∃ tracks, current_emotion self' = Some "happy"
                ∧ songs self' !! "happy" = Some tracks
                ∧ "a.mp3" ∈ tracks.
Proof.
  intros self loc.
  destruct (loop_body (face_frame "happy" 14) loc self)
    as [[r self'] log] eqn:Hbody.
  assert (∃ continue loc', r = inr (continue, loc')
                           ∧ loaded_songs log = ["a.mp3"]
                           ∧ current_emotion self' = Some "happy")
    as (continue & loc' & -> & Hlog & Hcur).
  { vm_compute in Hbody. injection Hbody as <- <- <-.
    eexists _, _. split_and!; reflexivity. }
  exists continue, loc', self', log. split_and!; [reflexivity|exact Hlog|].
  destruct (loaded_song_matches_committed_mood _ _ _ _ _ _ _ "a.mp3" Hbody)
    as (mood & tracks & H1 & H2 & H3).
  { rewrite Hlog. apply list_elem_of_here. }
  rewrite Hcur in H1. injection H1 as <-. by exists tracks.
Defined.

Lemma run_facts (opened : bool) (frames : list Frame) (self : Player)
    (continue : bool) (loc' : Locals) (self' : Player) (log : list event) :
  run opened frames self = (inr (continue, loc'), self', log) →
  (well_formed self → well_formed self')
  ∧ same_settings self' self
  ∧ (∀ song, song ∈ loaded_songs log →
       ∃ c tracks, songs self !! c = Some tracks ∧ song ∈ tracks
                   ∧ (well_formed self → c ∈ moods)).
Proof.
  unfold run. destruct opened; simpl.
  - intros Hrun.
    destruct (run_loop_facts _ _ _ _ _ _ _ Hrun) as (H1 & H2 & H3 & _).
    by split_and!.
  - unfold_M. intros [= <- <- <- <-]. split_and!; [done|by split|].
    intros song H. by apply elem_of_nil in H.
Qed.

(** X10: whatever the camera, the classifier, the clock and the mixer do, a
    run that starts from the freshly constructed player ends with at most
    ten history entries, all of them moods, with a committed emotion that is
    absent or a mood, with a current song that is absent or a track of the
    catalog, and with the catalog, both thresholds and the detection
    frequency as they were. *)
Theorem run_keeps_player_well_formed (catalog : gmap string (list string))
    (opened : bool) (frames : list Frame) (continue : bool) (loc' : Locals)
    (self' : Player) (log : list event) :
  run opened frames (init catalog) = (inr (continue, loc'), self', log) →
  length (emotion_history self') ≤ 10
  ∧ (∀ c, c ∈ emotion_history self' → c ∈ moods)
  ∧ (∀ c, current_emotion self' = Some c → c ∈ moods)
  ∧ (∀ song, current_song self' = Some song → in_catalog catalog song)
  ∧ songs self' = catalog
  ∧ emotion_stability_threshold self' = 3%Q
  ∧ confidence_threshold self' = (3 # 10)%Q
  ∧ detection_frequency self' = 3.
Proof.
  intros Hrun.
  destruct (run_facts _ _ _ _ _ _ _ Hrun) as (Hwf & [S1 S2 S3 S4] & _).
  destruct (Hwf (init_well_formed catalog)) as [W1 W2 W3 W4].
  simpl in *. split_and!; try done.
  intros song Hsong. rewrite <- S1. by apply W4.
Qed.

Lemma run_keeps_player_well_formed_witness :
  let catalog : gmap string (list string) := <["happy" := ["a.mp3"]]> ∅ in
  let frames :=
    camera [("happy", 0); ("happy", 1); ("happy", 2); ("happy", 4);
            ("happy", 5)]%Q in
  ∃ continue loc' self' log,
    run true frames (init catalog) = (inr (continue, loc'), self', log)
    ∧ length (emotion_history self') ≤ 10
    ∧ (∀ c, current_emotion self' = Some c → c ∈ moods)
    ∧ songs self' = catalog.
Proof.
  intros catalog frames.
  destruct (run true frames (init catalog)) as [[r self'] log] eqn:Hrun.
  assert (∃ continue loc', r = inr (continue, loc')) as (continue & loc' & ->).
  { vm_compute in Hrun. injection Hrun as <- _ _. by eexists _, _. }
  exists continue, loc', self', log. split; [reflexivity|].
  destruct (run_keeps_player_well_formed _ _ _ _ _ _ _ Hrun)
    as (H1 & _ & H3 & _ & H5 & _).
  by split_and!.
Defined.

(** X11: every song a run from the freshly constructed player loads into the
    mixer is a track of the catalog bucket of one of the three moods. *)
Theorem run_loads_only_catalog_tracks (catalog : gmap string (list string))
    (opened : bool) (frames : list Frame) (continue : bool) (loc' : Locals)
    (self' : Player) (log : list event) (song : string) :
  run opened frames (init catalog) = (inr (continue, loc'), self', log) →
  song ∈ loaded_songs log →
  ∃ mood tracks,
    mood ∈ moods ∧ catalog !! mood = Some tracks ∧ song ∈ tracks.
Proof.
  intros Hrun Hsong.
  destruct (run_facts _ _ _ _ _ _ _ Hrun) as (_ & _ & Hl).
  destruct (Hl song Hsong) as (c & tracks & H1 & H2 & H3).
  exists c, tracks. split_and!; try done.
  apply H3, init_well_formed.
Qed.

Lemma run_loads_only_catalog_tracks_witness :
  let catalog : gmap string (list string) := <["happy" := ["a.mp3"]]> ∅ in
  let frames :=
    camera [("happy", 0); ("happy", 1); ("happy", 2); ("happy", 4);
            ("happy", 5)]%Q in
  ∃ continue loc' self' log,
    run true frames (init catalog) = (inr (continue, loc'), self', log)
    ∧ loaded_songs log = ["a.mp3"]
    ∧ ∃ mood tracks,
        mood ∈ moods ∧ catalog !! mood = Some tracks ∧ "a.mp3" ∈ tracks.
Proof.
  intros catalog frames.
  destruct (run true frames (init catalog)) as [[r self'] log] eqn:Hrun.
  assert (∃ continue loc', r = inr (continue, loc')
                           ∧ loaded_songs log = ["a.mp3"])
    as (continue & loc' & -> & Hlog).
  { vm_compute in Hrun. injection Hrun as <- _ <-.
    eexists _, _. split; reflexivity. }
  exists continue, loc', self', log. split_and!; [reflexivity|exact Hlog|].
  apply (run_loads_only_catalog_tracks _ _ _ _ _ _ _ "a.mp3" Hrun).
  rewrite Hlog. apply list_elem_of_here.
Defined.

(** X12: how a run ends. If the webcam could not be opened, [run] prints the
    error and returns without touching the player or the mixer (the mixer is
    not shut down). Otherwise, while no frame has the camera failing or the
    quit key down, the loop is still going, has counted every frame and has
    not shut the mixer down; at the first such frame the loop is left (that
    frame is not counted) and the trace ends with the cleanup: music stop,
    mixer quit, the farewell line, the only place the mixer is shut down. *)
Theorem run_exit_and_cleanup (opened : bool) (frames : list Frame)
    (self : Player) (continue : bool) (loc' : Locals) (self' : Player)
    (log : list event) :
  run opened frames self = (inr (continue, loc'), self', log) →
  if opened then
    if continue then
      (MixerQuit ∉ log)
      ∧ Forall (λ fr, exits fr = false) frames
      ∧ frame_count loc' = length frames
    else
      ∃ log0 pre fr post,
        log = log0 ++ cleanup_events
        ∧ (MixerQuit ∉ log0)
        ∧ frames = pre ++ fr :: post
        ∧ Forall (λ fr, exits fr = false) pre
        ∧ exits fr = true
        ∧ frame_count loc' = length pre
  else continue = false ∧ self' = self ∧ log = [Print CouldNotAccessWebcam].
Proof.
  unfold run. destruct opened; simpl.
  - intros Hrun.
    destruct (run_loop_facts _ _ _ _ _ _ _ Hrun) as (_ & _ & _ & H).
    destruct continue; simpl in H.
    + destruct H as (H1 & H2 & H3). by split_and!.
    + destruct H as (log0 & pre & fr & post & H).
      by exists log0, pre, fr, post.
  - unfold_M. by intros [= <- <- <- <-].
Qed.

Lemma run_exit_and_cleanup_witness :
  let quit :=
    {| read_ok := true; detection := inr []; now := 1%Q; busy := false;
       choice := 0; load_error := None; play_error := None;
       key_q := true |} in
  ∃ loc' self' log0,
    run true [quiet_frame 0; quit; quiet_frame 2] (init ∅)
    = (inr (false, loc'), self', log0 ++ cleanup_events)
    ∧ frame_count loc' = 1.
Proof.
  intros quit.
  destruct (run true [quiet_frame 0; quit; quiet_frame 2] (init ∅))
    as [[r self'] log] eqn:Hrun.
  assert (∃ loc', r = inr (false, loc')) as (loc' & ->).
  { vm_compute in Hrun. injection Hrun as <- _ _. by eexists. }
  pose proof (run_exit_and_cleanup _ _ _ _ _ _ _ Hrun) as H. simpl in H.
  destruct H as (log0 & pre & fr & post & -> & _ & Hsplit & Hpre & Hfr & Hc).
  exists loc', self', log0. split; [reflexivity|].
  rewrite Hc. destruct pre as [|p0 [|p1 pre]]; simpl in *.
  - injection Hsplit as <- _. discriminate.
  - reflexivity.
  - injection Hsplit as <- <- _.
    apply Forall_cons in Hpre as [_ Hpre].
    apply Forall_cons in Hpre as [Hq _]. discriminate.
Defined.

Lemma run_loop_exit (fr : Frame) (post : list Frame) (loc : Locals)
    (self : Player) :
  exits fr = true →
  run_loop (fr :: post) loc self = run_loop [fr] loc self.
Proof.
  intros Hex. cbn [run_loop]. unfold mbind, M_bind, bind.
  destruct (loop_body fr loc self) as [[[e|[c loc1]] self1] log1] eqn:Hbody;
    [done|].
  destruct (loop_body_facts _ _ _ _ _ _ _ Hbody)
    as (_ & _ & _ & _ & _ & _ & Hc & _).
  rewrite Hex in Hc. by subst c.
Qed.

(** X13: the frames after the first one on which the camera fails or the
    quit key is down are never looked at: a run over them is the run over
    the frames up to and including that one. *)
Theorem run_stops_at_first_exit (opened : bool) (pre : list Frame)
    (fr : Frame) (post : list Frame) (self : Player) :
  exits fr = true →
  run opened (pre ++ fr :: post) self = run opened (pre ++ [fr]) self.
Proof.
  intros Hex. unfold run. destruct opened; simpl; [|done].
  generalize initial_locals. revert self.
  induction pre as [|p pre IH]; intros self loc.
  - by apply run_loop_exit.
  - cbn [app run_loop]. unfold mbind, M_bind, bind.
    destruct (loop_body p loc self) as [[[e|[c loc1]] self1] log1]; [done|].
    destruct c; [|done]. by rewrite IH.
Qed.

Lemma run_stops_at_first_exit_witness :
  let failing :=
    {| read_ok := false; detection := inr []; now := 1%Q; busy := false;
       choice := 0; load_error := None; play_error := None;
       key_q := false |} in
  run true ([quiet_frame 0] ++ failing :: [face_frame "happy" 2])
    (init ∅)
  = run true ([quiet_frame 0] ++ [failing]) (init ∅).
Proof.
  intros failing. apply run_stops_at_first_exit. reflexivity.
Defined.

(** X14: an iteration leaves the history alone unless the frame was read and
    was due for analysis, and then it appends exactly one category, a mood,
    dropping the oldest entry when the history was full. *)
Theorem iteration_appends_at_most_one (fr : Frame) (loc : Locals)
    (self : Player) (continue : bool) (loc' : Locals) (self' : Player)
    (log : list event) :
  loop_body fr loc self = (inr (continue, loc'), self', log) →
  emotion_history self' = emotion_history self
  ∨ ∃ c, c ∈ moods
         ∧ read_ok fr = true
         ∧ frame_count loc mod detection_frequency self = 0
         ∧ emotion_history self'
           = deque_append history_maxlen (emotion_history self) c.
Proof.
  intros Hbody.
  destruct (loop_body_facts _ _ _ _ _ _ _ Hbody) as (_ & _ & H & _).
  exact H.
Qed.

Lemma iteration_appends_at_most_one_witness :
  ∃ continue loc' self' log,
    loop_body (face_frame "angry" 0) initial_locals (init ∅)
    = (inr (continue, loc'), self', log)
    ∧ emotion_history self' = ["sad"].
Proof.
  destruct (loop_body (face_frame "angry" 0) initial_locals (init ∅))
    as [[r self'] log] eqn:Hbody.
  assert (∃ continue loc', r = inr (continue, loc')
                           ∧ emotion_history self' = ["sad"])
    as (continue & loc' & -> & Hh).
  { vm_compute in Hbody. injection Hbody as <- <- _.
    eexists _, _. split; reflexivity. }
  exists continue, loc', self', log. split; [reflexivity|].
  destruct (iteration_appends_at_most_one _ _ _ _ _ _ _ Hbody)
    as [H|(c & _ & _ & _ & H)]; exact Hh.
Defined.

(** X15: of the faces the classifier reports, only the one with the largest
    box area counts (the first such one when several tie): it is one of the
    reported faces, no reported face has a larger area, and the iteration
    does exactly what it would do had the classifier reported that face
    alone. *)
Theorem only_largest_face_counts (fr : Frame) (loc : Locals) (self : Player)
    (f : face) (faces : list face) :
  detection fr = inr (f :: faces) →
  let best := max_from Z.ltb area f faces in
  best ∈ f :: faces
  ∧ (∀ g, g ∈ f :: faces → (area g ≤ area best)%Z)
  ∧ loop_body fr loc self
    = loop_body (set_detection (inr [best]) fr) loc self.
Proof.
  intros Hd best. split; [apply max_from_elem|]. split.
  - intros g Hg. apply (max_from_upper Z.ltb Z.le area); try done.
    + intros a b H. apply Z.ltb_ge, H.
    + intros a b H. apply Z.lt_le_incl, Z.ltb_lt, H.
    + intros a b c. apply Z.le_trans.
  - assert (analyze fr loc self
            = analyze (set_detection (inr [best]) fr) loc self) as Ha.
    { unfold analyze. unfold_M. rewrite Hd. reflexivity. }
    unfold loop_body. cbn [set_detection read_ok key_q].
    destruct (read_ok fr); [|done]. simpl. unfold_M.
    destruct (detection_frequency self); [done|].
    destruct (Nat.eqb _ _); [|done]. by rewrite Ha.
Qed.

Lemma only_largest_face_counts_witness :
  let small := {| box := (0, 0, 5, 5)%Z; emotions := [("sad", 9 # 10)] |} in
  let large := {| box := (7, 7, 20, 30)%Z;
                  emotions := [("happy", 8 # 10)] |} in
  let fr := set_detection (inr [small; large]) (quiet_frame 0) in
  loop_body fr initial_locals (init ∅)
  = loop_body (set_detection (inr [large]) fr) initial_locals (init ∅).
Proof.
  intros small large fr.
  destruct (only_largest_face_counts fr initial_locals (init ∅) small
              [large] eq_refl) as (_ & _ & H).
  exact H.
Defined.


